(** * Adjacency matrix to DOT: [make_graph] and [str_to_dot]

    A shallow embedding of the two utility functions of the causal
    discovery example notebook:

    - [make_graph adjacency_matrix labels] builds a [graphviz.Digraph]
      from a numeric adjacency matrix and an optional list of labels;
    - [str_to_dot string] turns the text that graphviz renders for such a
      graph into the one-line DOT text that is handed to [CausalModel].

    Data is modelled as the notebook has it: matrix cells are binary64
    floats (Rocq's primitive floats), a 2-D [ndarray] is the list of its
    rows, a Python [str] is a [string] whose characters are code points
    below 256, a Python exception is an error value, and the [Digraph]
    object is the list of statements its [body] accumulates. *)

From Stdlib Require Import List String Ascii Bool Arith ZArith NArith Lia.
From Stdlib Require Import Floats DecimalString Sorted.
Import ListNotations.

Set Implicit Arguments.
Set Warnings "-inexact-float".
Local Open Scope string_scope.
Local Open Scope list_scope.

(* ================================================================= *)
(** ** Python values and exceptions *)

Module Py.

(** The only exception the two functions can raise: an index that is
    out of range ([names[from_]], [names[to]], [graph[-1]]). *)
Inductive exn : Type := IndexError.

Inductive result (A : Type) : Type :=
| Ok (a : A)
| Raise (e : exn).
Arguments Ok {A} a.
Arguments Raise {A} e.

Definition bind {A B} (r : result A) (k : A -> result B) : result B :=
  match r with
  | Ok a => k a
  | Raise e => Raise e
  end.

(** [l[i]] for a list and a non-negative index. *)
Definition getitem {A} (l : list A) (i : nat) : result A :=
  match nth_error l i with
  | Some a => Ok a
  | None => Raise IndexError
  end.

(** Truth value of a list: empty lists are falsy. *)
Definition truthy {A} (l : list A) : bool :=
  match l with [] => false | _ :: _ => true end.

(** [f'{i}'] for a non-negative integer. *)
Definition format_int (i : nat) : string :=
  NilEmpty.string_of_uint (Nat.to_uint i).

(** *** Strings *)

Definition LF : ascii := ascii_of_nat 10.
Definition TAB : ascii := ascii_of_nat 9.

(** [str.isspace] on the code points below 256: U+0009..U+000D,
    U+001C..U+0020, U+0085 and U+00A0. *)
Definition isspace (c : ascii) : bool :=
  let n := nat_of_ascii c in
  (((9 <=? n) && (n <=? 13)) || ((28 <=? n) && (n <=? 32))
   || (n =? 133) || (n =? 160))%nat.

Fixpoint lstrip (s : string) : string :=
  match s with
  | EmptyString => EmptyString
  | String c t => if isspace c then lstrip t else s
  end.

Fixpoint rstrip (s : string) : string :=
  match s with
  | EmptyString => EmptyString
  | String c t =>
      match rstrip t with
      | EmptyString => if isspace c then EmptyString else String c EmptyString
      | r => String c r
      end
  end.

(** [s.strip()] *)
Definition strip (s : string) : string := rstrip (lstrip s).

(** [s.replace(old, new)] for a one-character [old] and a [new] of
    any length (the two calls of [str_to_dot] have this shape). *)
Fixpoint replace (old : ascii) (new : string) (s : string) : string :=
  match s with
  | EmptyString => EmptyString
  | String c t =>
      if Ascii.eqb c old then new ++ replace old new t
      else String c (replace old new t)
  end.

(** A slice bound, adjusted as Python adjusts it: a negative bound
    counts from the end, and everything is clipped to [0, len]. *)
Definition clip (len : nat) (i : Z) : nat :=
  if (i <? 0)%Z then Z.to_nat (Z.max 0 (Z.of_nat len + i))
  else Nat.min len (Z.to_nat i).

(** [s[start:stop]]; [None] is an omitted bound. Never raises. *)
Definition slice (s : string) (start stop : option Z) : string :=
  let len := String.length s in
  let a := match start with Some i => clip len i | None => 0 end in
  let b := match stop with Some j => clip len j | None => len end in
  substring a (b - a) s.

(** [s[i]]: raises [IndexError] outside [-len, len). *)
Definition str_getitem (s : string) (i : Z) : result string :=
  let len := Z.of_nat (String.length s) in
  let k := if (i <? 0)%Z then (len + i)%Z else i in
  if ((k <? 0) || (len <=? k))%Z then Raise IndexError
  else match String.get (Z.to_nat k) s with
       | Some c => Ok (String c EmptyString)
       | None => Raise IndexError
       end.

End Py.

Import Py.

Notation "x <- r ;; k" := (Py.bind r (fun x => k))
  (at level 61, r at next level, right associativity).

(* ================================================================= *)
(** ** numpy: 2-D arrays as lists of rows *)

Module Np.

Definition ndarray (A : Type) : Type := list (list A).

(** [np.abs(a)], elementwise. *)
Definition abs (a : ndarray float) : ndarray float :=
  map (map PrimFloat.abs) a.

(** [a > c], elementwise ([x > c] is [c < x]; false on NaN). *)
Definition gt (a : ndarray float) (c : float) : ndarray bool :=
  map (map (fun x => PrimFloat.ltb c x)) a.

Fixpoint true_cols (j : nat) (row : list bool) : list nat :=
  match row with
  | [] => []
  | b :: r => (if b then [j] else []) ++ true_cols (S j) r
  end.

Fixpoint where_from (i : nat) (idx : ndarray bool) : list (nat * nat) :=
  match idx with
  | [] => []
  | row :: rest => map (pair i) (true_cols 0 row) ++ where_from (S i) rest
  end.

(** [np.where(idx)] on a 2-D mask: the row indices and the column
    indices of the true cells, in C (row-major) order. *)
Definition where_ (idx : ndarray bool) : list nat * list nat :=
  let hits := where_from 0 idx in (map fst hits, map snd hits).

Fixpoint select_row {A} (row : list A) (m : list bool) : list A :=
  match row, m with
  | x :: r, b :: m' => (if b then [x] else []) ++ select_row r m'
  | _, _ => []
  end.

(** [a[idx]] for a boolean mask of the shape of [a]: the selected
    cells as a 1-D array, in row-major order. *)
Fixpoint boolean_index {A} (a : ndarray A) (idx : ndarray bool) : list A :=
  match a, idx with
  | r :: a', m :: idx' => select_row r m ++ boolean_index a' idx'
  | _, _ => []
  end.

End Np.

(* ================================================================= *)
(** ** graphviz: the [Digraph] object *)

Module Graphviz.

(** A line of the graph's [body]: [d.node(name)] appends a node
    statement, [d.edge(tail, head, label=l)] an edge statement. *)
Inductive stmt : Type :=
| node_stmt (name : string)
| edge_stmt (tail_name head_name label : string).

Record Digraph : Type := mkDigraph {
  engine : string;
  body : list stmt
}.

Definition new (engine : string) : Digraph :=
  {| engine := engine; body := [] |}.

Definition node (d : Digraph) (name : string) : Digraph :=
  {| engine := engine d; body := body d ++ [node_stmt name] |}.

Definition edge (d : Digraph) (tail_name head_name label : string) : Digraph :=
  {| engine := engine d;
     body := body d ++ [edge_stmt tail_name head_name label] |}.

(** The declared nodes and edges of a statement list, in declaration
    order. *)
Definition node_names (b : list stmt) : list string :=
  flat_map (fun s => match s with node_stmt n => [n] | _ => [] end) b.

Definition edge_triples (b : list stmt) : list (string * string * string) :=
  flat_map (fun s => match s with
                     | edge_stmt t h l => [(t, h, l)]
                     | _ => []
                     end) b.

Definition nodes (d : Digraph) : list string := node_names (body d).

Definition edges (d : Digraph) : list (string * string * string) :=
  edge_triples (body d).

End Graphviz.

Import Graphviz.

(* ================================================================= *)
(** ** The notebook's utility functions *)

Definition threshold : float := 0.01%float.

Section MakeGraph.

(** Python's [str] on a numpy float (the shortest decimal text that
    reads back as the same float). Formatting floats is not part of
    the notebook; it is taken as given. *)
Variable str : float -> string.

(** [for name in names: d.node(name)] *)
Definition add_nodes (d : Digraph) (names : list string) : Digraph :=
  fold_left node names d.

(** [for to, from_, coef in zip(...): d.edge(names[from_], names[to],
    label=str(coef))]; the first lookup out of range stops the loop. *)
Fixpoint add_edges (names : list string) (d : Digraph)
    (hits : list (nat * (nat * float))) : result Digraph :=
  match hits with
  | [] => Ok d
  | (to, (from_, coef)) :: rest =>
      tail_name <- getitem names from_ ;;
      head_name <- getitem names to ;;
      add_edges names (edge d tail_name head_name (str coef)) rest
  end.

Definition default_names (adjacency_matrix : Np.ndarray float) : list string :=
  map (fun i => ("x" ++ format_int i)%string) (seq 0 (List.length adjacency_matrix)).

(** [names = labels if labels else [f'x{i}' for i in range(len(adjacency_matrix))]] *)
Definition names_of (adjacency_matrix : Np.ndarray float)
    (labels : option (list string)) : list string :=
  match labels with
  | Some l => if truthy l then l else default_names adjacency_matrix
  | None => default_names adjacency_matrix
  end.

Definition make_graph (adjacency_matrix : Np.ndarray float)
    (labels : option (list string)) : result Digraph :=
  let idx := Np.gt (Np.abs adjacency_matrix) threshold in
  let dirs := Np.where_ idx in
  let d := Graphviz.new "dot" in
  let names := names_of adjacency_matrix labels in
  let d := add_nodes d names in
  add_edges names d
    (combine (fst dirs)
       (combine (snd dirs) (Np.boolean_index adjacency_matrix idx))).

End MakeGraph.

(** [str_to_dot(string)]: the slices never raise; [graph[-1]] raises
    [IndexError] on the empty string. *)
Definition str_to_dot (string : string) : result String.string :=
  let graph := replace TAB "" (replace LF ";" (strip string)) in
  last <- str_getitem graph (-1) ;;
  Ok (slice graph None (Some 9%Z)
      ++ slice graph (Some 10%Z) (Some (-2)%Z) ++ last)%string.

(* ================================================================= *)
(** ** Row-major enumeration of a matrix

    The reference against which the numpy pipeline of [make_graph]
    ([np.where] zipped with the masked array) is compared: every cell
    with its row and column index, rows first. *)

Definition exceeds (w : float) : bool :=
  PrimFloat.ltb threshold (PrimFloat.abs w).

Definition enumerate_from {A} (s : nat) (l : list A) : list (nat * A) :=
  combine (seq s (List.length l)) l.

Definition cells_from {A} (s : nat) (M : Np.ndarray A) : list (nat * (nat * A)) :=
  flat_map (fun ir => map (pair (fst ir)) (enumerate_from 0 (snd ir)))
           (enumerate_from s M).

Definition cells {A} (M : Np.ndarray A) : list (nat * (nat * A)) :=
  cells_from 0 M.

(** [M[i][j]], when the cell exists. *)
Definition cell {A} (M : Np.ndarray A) (i j : nat) : option A :=
  match nth_error M i with
  | Some row => nth_error row j
  | None => None
  end.

Definition hit (c : nat * (nat * float)) : bool := exceeds (snd (snd c)).

(** The cells above the threshold, in row-major order. *)
Definition hits (M : Np.ndarray float) : list (nat * (nat * float)) :=
  filter hit (cells M).

(** Row-major order on index pairs. *)
Definition rm_lt (a b : nat * nat) : Prop :=
  fst a < fst b \/ (fst a = fst b /\ snd a < snd b).

Definition index_of {A} (c : nat * (nat * A)) : nat * nat :=
  (fst c, fst (snd c)).

(** An N x N matrix. *)
Definition square {A} (N : nat) (M : Np.ndarray A) : Prop :=
  List.length M = N /\ Forall (fun row => List.length row = N) M.

Definition squareb {A} (N : nat) (M : Np.ndarray A) : bool :=
  (List.length M =? N)%nat && forallb (fun row => (List.length row =? N)%nat) M.

(** Both indices of a cell can be looked up in [names]. *)
Definition in_range {A} (n : nat) (c : nat * (nat * A)) : bool :=
  ((fst c <? n) && (fst (snd c) <? n))%nat.

Section EdgeOf.
Variable str : float -> string.

(** The statement that the loop of [make_graph] adds for one hit. *)
Definition edge_of (names : list string) (c : nat * (nat * float)) : stmt :=
  edge_stmt (nth (fst (snd c)) names "") (nth (fst c) names "")
            (str (snd (snd c))).
End EdgeOf.


(** [M[i][j]] for indices in range (0.0 stands for a missing cell). *)
Definition at_ (M : Np.ndarray float) (i j : nat) : float :=
  nth j (nth i M []) 0%float.

(** The index pairs of an n x m grid in row-major order. *)
Definition row_major (n m : nat) : list (nat * nat) :=
  list_prod (seq 0 n) (seq 0 m).

(** The number of cells (i, j) of an N x N matrix with |M[i][j]| > 0.01,
    counted by index. *)
Definition count_above (N : nat) (M : Np.ndarray float) : nat :=
  List.length (filter (fun ij => exceeds (at_ M (fst ij) (snd ij)))
                      (row_major N N)).

(** The edge that [make_graph] declares for the cell at row [fst ij]
    (the target) and column [snd ij] (the source). *)
Definition edge_at (str : float -> string) (names : list string)
    (M : Np.ndarray float) (ij : nat * nat) : string * string * string :=
  (nth (snd ij) names "", nth (fst ij) names "",
   str (at_ M (fst ij) (snd ij))).

Definition above (M : Np.ndarray float) (ij : nat * nat) : bool :=
  exceeds (at_ M (fst ij) (snd ij)).

(** Labels that fit an N x N matrix: absent, or N of them. *)
Definition valid_labels (N : nat) (labels : option (list string)) : Prop :=
  match labels with
  | None => True
  | Some l => List.length l = N
  end.

(** A stand-in for [str] in closed examples: the text Python prints for
    the floats the examples use, and a placeholder elsewhere. *)
Definition str_fixture (w : float) : string :=
  if PrimFloat.eqb w 0.5 then "0.5"
  else if PrimFloat.eqb w 0.6 then "0.6"
  else if PrimFloat.eqb w 0 then "0.0"
  else "nan".

(* ================================================================= *)
(** ** Reference notions for [str_to_dot] *)

(** Every character is whitespace (true of the empty string). *)
Fixpoint all_space (s : string) : bool :=
  match s with
  | EmptyString => true
  | String c t => isspace c && all_space t
  end.

Definition first_char (s : string) : option ascii :=
  match s with
  | EmptyString => None
  | String c _ => Some c
  end.

Fixpoint last_char (s : string) : option ascii :=
  match s with
  | EmptyString => None
  | String c EmptyString => Some c
  | String _ t => last_char t
  end.

(** The text after the first three steps of [str_to_dot]: trimmed, line
    feeds turned into semicolons, tabs removed. *)
Definition normalized (s : string) : string :=
  replace TAB "" (replace LF ";" (strip s)).

(** The parts one after the other (joining on the empty string). *)
Definition cat (parts : list string) : string :=
  fold_right String.append "" parts.

(** [sep.join(parts)] *)
Fixpoint join (sep : string) (parts : list string) : string :=
  match parts with
  | [] => ""
  | [p] => p
  | p :: rest => p ++ sep ++ join sep rest
  end.

(** Step 4 of serialize as the specification words it: a prefix and a
    suffix of fixed width are stripped from the normalized text, so
    that only the inner statement list and the closing brace remain.
    The widths are those of [digraph {;] (ten characters) and of [;}]
    (two characters); the closing brace is the last character. *)
Definition serialize_spec (s : string) : result string :=
  let graph := normalized s in
  last <- str_getitem graph (-1) ;;
  Ok (substring 10 (String.length graph - 12) graph ++ last)%string.

(* ================================================================= *)
(** ** The rendered text of a graph *)

Section Source.

(** How the engine quotes a node name and an attribute value. The
    quoting rules belong to the rendering engine; the results below hold
    for any. *)
Variable quote_name quote_value : string -> string.

(** Modelled from the spec: the text rendering of a [Digraph] (the
    [source] property of the graphviz package) is not part of the
    repository. Per the specification the rendered form is a
    [digraph { ... }] block with one statement per line, a node as its
    name and an edge as [source -> target [label=weight]]; each body line
    is indented by a tab, which is what steps 2 and 3 of [str_to_dot]
    undo. *)
Definition stmt_text (s : stmt) : string :=
  match s with
  | node_stmt name => quote_name name
  | edge_stmt t h l =>
      quote_name t ++ " -> " ++ quote_name h
      ++ " [label=" ++ quote_value l ++ "]"
  end.

(** Modelled from the spec: one line of the rendered body, a tab, the
    statement and a line feed. *)
Definition body_line (s : stmt) : string :=
  String TAB (stmt_text s ++ String LF "").

(** Modelled from the spec: the rendered text, the statements between
    the header line [digraph {] and the footer line [}]. *)
Definition source (d : Digraph) : string :=
  "digraph {" ++ String LF (cat (map body_line (body d)) ++ "}" ++ String LF "").

End Source.

(** The quoting the specification shows: names as they are, values in
    double quotes. *)
Definition dquote (s : string) : string :=
  String (ascii_of_nat 34) (s ++ String (ascii_of_nat 34) "").

(** The string without its character at index [i] (unchanged when
    there is none). *)
Fixpoint delete_at (i : nat) (s : string) : string :=
  match s, i with
  | EmptyString, _ => EmptyString
  | String _ t, O => t
  | String c t, S j => String c (delete_at j t)
  end.

(** What the first three steps make of one rendered statement. *)
Definition norm_text (t : string) : string :=
  replace TAB "" (replace LF ";" t).

(** One statement of a graph as [str_to_dot] leaves it. *)
Definition norm_stmt (quote_name quote_value : string -> string)
    (st : stmt) : string :=
  norm_text (stmt_text quote_name quote_value st).

(* ================================================================= *)
(** ** [make_graph] over a store of Python objects

    The same function once more, now with the objects it touches held
    in a store and named by references, so that reading, allocating and
    mutating are explicit: numpy operations allocate their result,
    [names] aliases [labels] when the labels are used, and [d.node] and
    [d.edge] update the [Digraph] object in place. *)

Module Store.

Inductive object : Type :=
| Floats2 (a : Np.ndarray float)     (* 2-D float array *)
| Bools2 (m : Np.ndarray bool)       (* 2-D boolean array *)
| Ints1 (v : list nat)               (* 1-D index array *)
| Floats1 (v : list float)           (* 1-D float array *)
| StrList (l : list string)          (* list of str *)
| Graph (d : Digraph).               (* graphviz.Digraph *)

Definition ref : Type := nat.
Definition heap : Type := list object.

(** A computation on the store: [None] when it reads a reference that
    holds no object of the expected kind (which no caller of
    [make_graph] can make happen); otherwise the outcome and the store
    it leaves, also when an exception propagates. *)
Definition M (A : Type) : Type := heap -> option (result A * heap).

Definition ret {A} (a : A) : M A := fun h => Some (Ok a, h).

Definition raise {A} (e : exn) : M A := fun h => Some (Raise e, h).

Definition stuck {A} : M A := fun _ => None.

Definition bind {A B} (m : M A) (k : A -> M B) : M B :=
  fun h =>
    match m h with
    | Some (Ok a, h') => k a h'
    | Some (Raise e, h') => Some (Raise e, h')
    | None => None
    end.

Definition alloc (o : object) : M ref :=
  fun h => Some (Ok (List.length h), h ++ [o]).

Definition load (r : ref) : M object :=
  fun h => match nth_error h r with
           | Some o => Some (Ok o, h)
           | None => None
           end.

Fixpoint set_nth (h : heap) (r : ref) (o : object) : heap :=
  match h, r with
  | [], _ => []
  | _ :: t, O => o :: t
  | x :: t, S r' => x :: set_nth t r' o
  end.

Definition store (r : ref) (o : object) : M unit :=
  fun h => if (r <? List.length h)%nat then Some (Ok tt, set_nth h r o)
           else None.

End Store.

Notation "x <~ m ;; k" := (Store.bind m (fun x => k))
  (at level 61, m at next level, right associativity).

Module StoreOps.
Import Store.

Definition load_floats2 (r : ref) : M (Np.ndarray float) :=
  o <~ load r ;; match o with Floats2 a => ret a | _ => stuck end.

Definition load_bools2 (r : ref) : M (Np.ndarray bool) :=
  o <~ load r ;; match o with Bools2 m => ret m | _ => stuck end.

Definition load_ints1 (r : ref) : M (list nat) :=
  o <~ load r ;; match o with Ints1 v => ret v | _ => stuck end.

Definition load_floats1 (r : ref) : M (list float) :=
  o <~ load r ;; match o with Floats1 v => ret v | _ => stuck end.

Definition load_list (r : ref) : M (list string) :=
  o <~ load r ;; match o with StrList l => ret l | _ => stuck end.

Definition load_graph (r : ref) : M Digraph :=
  o <~ load r ;; match o with Graph d => ret d | _ => stuck end.

(** [np.abs(a)]: a new array. *)
Definition np_abs (a : ref) : M ref :=
  x <~ load_floats2 a ;; alloc (Floats2 (Np.abs x)).

(** [a > c]: a new boolean array. *)
Definition np_gt (a : ref) (c : float) : M ref :=
  x <~ load_floats2 a ;; alloc (Bools2 (Np.gt x c)).

(** [np.where(idx)]: a tuple of two new index arrays. *)
Definition np_where (idx : ref) : M (ref * ref) :=
  m <~ load_bools2 idx ;;
  r0 <~ alloc (Ints1 (fst (Np.where_ m))) ;;
  r1 <~ alloc (Ints1 (snd (Np.where_ m))) ;;
  ret (r0, r1).

(** [a[idx]]: a new 1-D array. *)
Definition np_boolean_index (a idx : ref) : M ref :=
  x <~ load_floats2 a ;;
  m <~ load_bools2 idx ;;
  alloc (Floats1 (Np.boolean_index x m)).

(** [graphviz.Digraph(engine=...)] *)
Definition digraph_new (engine : string) : M ref :=
  alloc (Graph (Graphviz.new engine)).

(** [d.node(name)]: updates the object [d] refers to. *)
Definition digraph_node (d : ref) (name : string) : M unit :=
  g <~ load_graph d ;; store d (Graph (Graphviz.node g name)).

(** [d.edge(tail, head, label=l)]: updates the object [d] refers to. *)
Definition digraph_edge (d : ref) (tail_name head_name label : string) : M unit :=
  g <~ load_graph d ;;
  store d (Graph (Graphviz.edge g tail_name head_name label)).

(** [names[i]] *)
Definition list_getitem (names : ref) (i : nat) : M string :=
  l <~ load_list names ;;
  match nth_error l i with
  | Some s => ret s
  | None => raise IndexError
  end.

Fixpoint for_each {A} (body : A -> M unit) (l : list A) : M unit :=
  match l with
  | [] => ret tt
  | x :: rest => _ <~ body x ;; for_each body rest
  end.

Section MakeGraphStore.
Variable str : float -> string.

(** [names = labels if labels else [f'x{i}' for i in
    range(len(adjacency_matrix))]]: the labels object itself, or a new
    list. *)
Definition names_ref (adjacency_matrix : ref) (labels : option ref) : M ref :=
  let fresh :=
    a <~ load_floats2 adjacency_matrix ;; alloc (StrList (default_names a)) in
  match labels with
  | Some l => L <~ load_list l ;; if truthy L then ret l else fresh
  | None => fresh
  end.

(** The body of the edge loop: [d.edge(names[from_], names[to],
    label=str(coef))]. *)
Definition edge_step (names d : ref) (c : nat * (nat * float)) : M unit :=
  tail_name <~ list_getitem names (fst (snd c)) ;;
  head_name <~ list_getitem names (fst c) ;;
  digraph_edge d tail_name head_name (str (snd (snd c))).

Definition make_graph (adjacency_matrix : ref) (labels : option ref) : M ref :=
  absm <~ np_abs adjacency_matrix ;;
  idx <~ np_gt absm threshold ;;
  dirs <~ np_where idx ;;
  d <~ digraph_new "dot" ;;
  names <~ names_ref adjacency_matrix labels ;;
  name_list <~ load_list names ;;
  _ <~ for_each (digraph_node d) name_list ;;
  vals <~ np_boolean_index adjacency_matrix idx ;;
  tos <~ load_ints1 (fst dirs) ;;
  froms <~ load_ints1 (snd dirs) ;;
  coefs <~ load_floats1 vals ;;
  _ <~ for_each (edge_step names d) (combine tos (combine froms coefs)) ;;
  ret d.

End MakeGraphStore.

(** The labels argument as the store holds it: absent, or a reference
    to a list object. *)
Definition labels_in (h : Store.heap) (labels : option Store.ref)
    (L : option (list string)) : Prop :=
  match labels, L with
  | Some l, Some Ls => nth_error h l = Some (Store.StrList Ls)
  | None, None => True
  | _, _ => False
  end.

(** Every object of [h] is still in [h'], at the same reference and
    with the same contents. *)
Definition unchanged (h h' : Store.heap) : Prop :=
  firstn (List.length h) h' = h.

End StoreOps.

(* ================================================================= *)
(** ** Characters and character classes *)

Definition DQ : ascii := ascii_of_nat 34.
Definition BSL : ascii := ascii_of_nat 92.

(** [p] holds of every character. *)
Fixpoint all_chars (p : ascii -> bool) (s : string) : bool :=
  match s with
  | EmptyString => true
  | String c t => p c && all_chars p t
  end.

(** [c] is not the character [x]. *)
Definition no_char (x : ascii) (c : ascii) : bool := negb (Ascii.eqb c x).

(** [0-9] *)
Definition is_digit (c : ascii) : bool :=
  let n := nat_of_ascii c in ((48 <=? n) && (n <=? 57))%nat.

(** [a-zA-Z_] *)
Definition is_name_start (c : ascii) : bool :=
  let n := nat_of_ascii c in
  (((65 <=? n) && (n <=? 90)) || ((97 <=? n) && (n <=? 122)) || (n =? 95))%nat.

(** [a-zA-Z0-9_] *)
Definition is_name_char (c : ascii) : bool := is_name_start c || is_digit c.

(** [0-9] or the decimal point. *)
Definition is_num_char (c : ascii) : bool := is_digit c || Ascii.eqb c ".".

(** [s] without the prefix [pat], when it starts with it. *)
Fixpoint strip_prefix (pat s : string) : option string :=
  match pat, s with
  | EmptyString, _ => Some s
  | String p pt, String c t => if Ascii.eqb p c then strip_prefix pt t else None
  | String _ _, EmptyString => None
  end.

(** The text before and after the first occurrence of [pat], if there
    is one (the outer parts of [s.partition(pat)]). *)
Fixpoint cut (pat s : string) : option (string * string) :=
  match strip_prefix pat s with
  | Some rest => Some (EmptyString, rest)
  | None =>
      match s with
      | EmptyString => None
      | String c t =>
          match cut pat t with
          | Some (a, b) => Some (String c a, b)
          | None => None
          end
      end
  end.

(** [s] without its last character. *)
Definition drop_last (s : string) : string :=
  substring 0 (String.length s - 1) s.

(** What a pattern ending in [$] is matched against besides [s] itself:
    [s] without its final line feed, if it ends in one. *)
Definition before_final_LF (s : string) : option string :=
  match last_char s with
  | Some c => if Ascii.eqb c LF then Some (drop_last s) else None
  | None => None
  end.

(** [s.lower()] on the code points below 256. *)
Definition lower_char (c : ascii) : ascii :=
  let n := nat_of_ascii c in
  if (((65 <=? n) && (n <=? 90))
      || ((192 <=? n) && (n <=? 222) && negb (n =? 215)))%nat
  then ascii_of_nat (n + 32) else c.

Fixpoint lower (s : string) : string :=
  match s with
  | EmptyString => EmptyString
  | String c t => String (lower_char c) (lower t)
  end.

(* ================================================================= *)
(** ** The rendering engine: quoting and the rendered text *)

(** Modelled from the spec: the rendering engine (the graphviz
    package) is not part of the repository; the specification only
    says that it renders a [digraph { ... }] block of node and edge
    statements. This and the following definitions up to [render] model
    how the engine writes identifiers. Its pattern for identifiers that
    need no quotes: a name, that is a letter or underscore followed by
    letters, digits and underscores. *)
Definition name_like (s : string) : bool :=
  match s with
  | EmptyString => false
  | String c t => is_name_start c && all_chars is_name_char t
  end.

(** Modelled from the spec: what follows the leading digits of a
    numeral. *)
Fixpoint after_digits (s : string) : string :=
  match s with
  | EmptyString => EmptyString
  | String c t => if is_digit c then after_digits t else s
  end.

(** Modelled from the spec: the engine's pattern for numerals without
    sign: a point and one or more digits, or one or more digits with,
    optionally, a point and any number of digits after them. *)
Definition unsigned_numeral (s : string) : bool :=
  match s with
  | EmptyString => false
  | String c t =>
      if Ascii.eqb c "." then negb (String.eqb t "") && all_chars is_digit t
      else is_digit c
           && match after_digits t with
              | EmptyString => true
              | String d r => Ascii.eqb d "." && all_chars is_digit r
              end
  end.

(** Modelled from the spec: a numeral, with an optional minus sign. *)
Definition numeral_like (s : string) : bool :=
  match s with
  | String c t => if Ascii.eqb c "-" then unsigned_numeral t
                  else unsigned_numeral s
  | EmptyString => false
  end.

(** Modelled from the spec: the engine's test for an identifier that
    is written without quotes, its pattern anchored at both ends (the
    end anchor also matches before a final line feed). *)
Definition valid_id (s : string) : bool :=
  let core x := name_like x || numeral_like x in
  core s || match before_final_LF s with Some x => core x | None => false end.

(** Modelled from the spec: the engine's test for an HTML-like string,
    [<...>], which is written as it is. *)
Definition html_like (s : string) : bool :=
  let closed x := match last_char x with
                  | Some c => Ascii.eqb c ">" && (2 <=? String.length x)%nat
                  | None => false
                  end in
  match first_char s with
  | Some c =>
      Ascii.eqb c "<"
      && (closed s
          || match before_final_LF s with Some x => closed x | None => false end)
  | None => false
  end.

(** Modelled from the spec: the keywords of the graph language, which
    are quoted when used as names (compared in lower case). *)
Definition is_keyword (s : string) : bool :=
  String.eqb s "node" || String.eqb s "edge" || String.eqb s "graph"
  || String.eqb s "digraph" || String.eqb s "subgraph" || String.eqb s "strict".

(** Modelled from the spec: inside quotes the engine puts a backslash
    before every double quote that is not already escaped, that is,
    that follows an even number of backslashes. [odd] tells whether the
    characters just before form an odd run of backslashes. *)
Fixpoint escape_quotes (odd : bool) (s : string) : string :=
  match s with
  | EmptyString => EmptyString
  | String c t =>
      if Ascii.eqb c BSL then String c (escape_quotes (negb odd) t)
      else if Ascii.eqb c DQ then
        if odd then String c (escape_quotes false t)
        else String BSL (String c (escape_quotes false t))
      else String c (escape_quotes false t)
  end.

(** Modelled from the spec: the engine's quoting of a node name or of
    an attribute value. *)
Definition gv_quote (s : string) : string :=
  if html_like s then s
  else if negb (valid_id s) || is_keyword (lower s)
       then String DQ (escape_quotes false s ++ String DQ "")
       else s.

(** Modelled from the spec: the engine's quoting of an end of an edge,
    where a colon separates the node from a port and a compass
    point. *)
Definition gv_quote_edge (s : string) : string :=
  match cut ":" s with
  | None => gv_quote s
  | Some (node_part, rest) =>
      match rest with
      | EmptyString => gv_quote node_part
      | _ =>
          match cut ":" rest with
          | None => gv_quote node_part ++ ":" ++ gv_quote rest
          | Some (port, compass) =>
              match compass with
              | EmptyString => gv_quote node_part ++ ":" ++ gv_quote port
              | _ => gv_quote node_part ++ ":" ++ gv_quote port ++ ":" ++ compass
              end
          end
      end
  end.

(** Modelled from the spec: a statement as the engine writes it, a node
    as its quoted name and an edge as [tail -> head [label=value]]. *)
Definition gv_stmt_text (st : stmt) : string :=
  match st with
  | node_stmt name => gv_quote name
  | edge_stmt t h l =>
      gv_quote_edge t ++ " -> " ++ gv_quote_edge h
      ++ " [label=" ++ gv_quote l ++ "]"
  end.

(** Modelled from the spec: the rendered text of a graph, the header
    line [digraph {], one line per statement, indented by a tab, and
    the footer line [}]. *)
Definition render (d : Digraph) : string :=
  "digraph {"
  ++ String LF
       (cat (map (fun st => String TAB (gv_stmt_text st ++ String LF "")) (body d))
        ++ "}" ++ String LF "").

(* ================================================================= *)
(** ** Reading a directed-graph description *)

(** Modelled from the spec: the reader of the directed-graph
    description (the DOT parser behind [CausalModel]) is not part of
    the repository. The reader modelled here covers the part of the
    graph language that a graph of nodes and labelled edges needs:
    identifiers written as names, as numerals or between double quotes
    (where a backslash before a double quote escapes it), node
    statements, edge statements [tail -> head] with or without spaces,
    ports after a colon, attribute lists in brackets, semicolons
    between statements, an optional name of the graph and an optional
    [strict], and strings between angle brackets, which are kept with
    their brackets. Subgraphs, chains of edges, attribute statements
    and comments are outside of it. The tokens: *)
Inductive token : Type :=
| TId (s : string)        (* an identifier, quotes and escapes resolved *)
| TKw (k : string)        (* a keyword, in lower case *)
| TArrow                  (* -> *)
| TLBrace | TRBrace       (* { } *)
| TLBrack | TRBrack       (* [ ] *)
| TEq | TSemi | TComma | TColon.

(** Modelled from the spec: what the scanner is in the middle of. *)
Inductive mode : Type :=
| Idle
| Word (acc : string)      (* a name *)
| Num (acc : string)       (* a numeral *)
| Minus                    (* after a minus sign *)
| Quote (acc : string)     (* between double quotes *)
| QuoteEsc (acc : string)  (* between double quotes, after a backslash *)
| Html (depth : nat) (acc : string). (* between angle brackets, [depth]
                                        further brackets being open *)

(** Modelled from the spec: white space between tokens. *)
Definition dot_space (c : ascii) : bool :=
  let n := nat_of_ascii c in (((9 <=? n) && (n <=? 13)) || (n =? 32))%nat.

(** Modelled from the spec: the characters of a name in the graph
    language, letters (those above 127 included), digits and the
    underscore. *)
Definition is_word_char (c : ascii) : bool :=
  is_name_char c || (128 <=? nat_of_ascii c)%nat.

Definition push (acc : string) (c : ascii) : string := acc ++ String c "".

(** Modelled from the spec: a name is a keyword or an identifier. *)
Definition word_token (w : string) : token :=
  if is_keyword (lower w) then TKw (lower w) else TId w.

Definition punct (c : ascii) : option token :=
  if Ascii.eqb c "{" then Some TLBrace
  else if Ascii.eqb c "}" then Some TRBrace
  else if Ascii.eqb c "[" then Some TLBrack
  else if Ascii.eqb c "]" then Some TRBrack
  else if Ascii.eqb c "=" then Some TEq
  else if Ascii.eqb c ";" then Some TSemi
  else if Ascii.eqb c "," then Some TComma
  else if Ascii.eqb c ":" then Some TColon
  else None.

(** Modelled from the spec: one character read between tokens. *)
Definition idle (c : ascii) : option (list token * mode) :=
  if dot_space c then Some ([], Idle)
  else if is_num_char c then Some ([], Num (String c ""))
  else if is_word_char c then Some ([], Word (String c ""))
  else if Ascii.eqb c "-" then Some ([], Minus)
  else if Ascii.eqb c DQ then Some ([], Quote "")
  else if Ascii.eqb c "<" then Some ([], Html 0 "<")
  else match punct c with
       | Some t => Some ([t], Idle)
       | None => None
       end.

Definition after_token (t : token) (c : ascii) : option (list token * mode) :=
  match idle c with
  | Some (ts, m) => Some (t :: ts, m)
  | None => None
  end.

(** Modelled from the spec: one character read in a given mode; the
    tokens that are completed and the mode after it. *)
Definition step (m : mode) (c : ascii) : option (list token * mode) :=
  match m with
  | Idle => idle c
  | Word acc =>
      if is_word_char c then Some ([], Word (push acc c))
      else after_token (word_token acc) c
  | Num acc =>
      if is_num_char c then Some ([], Num (push acc c))
      else after_token (TId acc) c
  | Minus =>
      if Ascii.eqb c ">" then Some ([TArrow], Idle)
      else if is_num_char c then Some ([], Num (String "-" (String c "")))
      else None
  | Quote acc =>
      if Ascii.eqb c DQ then Some ([TId acc], Idle)
      else if Ascii.eqb c BSL then Some ([], QuoteEsc acc)
      else Some ([], Quote (push acc c))
  | QuoteEsc acc =>
      if Ascii.eqb c DQ then Some ([], Quote (push acc c))
      else Some ([], Quote (push (push acc BSL) c))
  | Html depth acc =>
      if Ascii.eqb c "<" then Some ([], Html (S depth) (push acc c))
      else if Ascii.eqb c ">" then
        match depth with
        | O => Some ([TId (push acc c)], Idle)
        | S depth' => Some ([], Html depth' (push acc c))
        end
      else Some ([], Html depth (push acc c))
  end.

(** [ts] in front of the tokens that follow, if there are any. *)
Definition pre (ts : list token) (o : option (list token))
    : option (list token) :=
  match o with
  | Some l => Some (ts ++ l)
  | None => None
  end.

(** Modelled from the spec: the scanner. *)
Fixpoint lex_go (m : mode) (s : string) : option (list token) :=
  match s with
  | EmptyString =>
      match m with
      | Idle => Some []
      | Word acc => Some [word_token acc]
      | Num acc => Some [TId acc]
      | _ => None
      end
  | String c t =>
      match step m c with
      | Some (ts, m') => pre ts (lex_go m' t)
      | None => None
      end
  end.

(** Modelled from the spec: the statement being read, a node or an
    edge with the label found so far. *)
Inductive pending : Type :=
| PNode (n : string)
| PEdge (t h l : string).

Definition finish (p : pending) : stmt :=
  match p with
  | PNode n => node_stmt n
  | PEdge t h l => edge_stmt t h l
  end.

(** Only the label of an edge is kept of the attributes. *)
Definition set_attr (p : pending) (k v : string) : pending :=
  match p with
  | PEdge t h l => if String.eqb k "label" then PEdge t h v else p
  | PNode _ => p
  end.

(** Modelled from the spec: where the reader is in the grammar. *)
Inductive pstate : Type :=
| H0                             (* before [digraph] *)
| H1                             (* after [digraph] *)
| H2                             (* after the name of the graph *)
| SStmt                          (* at the start of a statement *)
| SId (p : pending)              (* after a node or the head of an edge *)
| SPort (p : pending)            (* after the colon of a port *)
| STail (t : string)             (* after [tail ->] *)
| SAttr (p : pending)            (* in brackets, before a key *)
| SAttrEq (p : pending) (k : string)
| SAttrVal (p : pending) (k : string)
| SAfter (p : pending)           (* after a closing bracket *)
| SEnd.                          (* after the closing brace *)

(** Modelled from the spec: one token read; the statement that is
    completed, if any, and the state after it. *)
Definition pstep (st : pstate) (t : token) : option (list stmt * pstate) :=
  match st, t with
  | H0, TKw k =>
      if String.eqb k "strict" then Some ([], H0)
      else if String.eqb k "digraph" then Some ([], H1)
      else None
  | H1, TId _ => Some ([], H2)
  | H1, TLBrace => Some ([], SStmt)
  | H2, TLBrace => Some ([], SStmt)
  | SStmt, TId n => Some ([], SId (PNode n))
  | SStmt, TRBrace => Some ([], SEnd)
  | SId p, TColon => Some ([], SPort p)
  | SId (PNode n), TArrow => Some ([], STail n)
  | SId p, TLBrack => Some ([], SAttr p)
  | SId p, TSemi => Some ([finish p], SStmt)
  | SId p, TId n => Some ([finish p], SId (PNode n))
  | SId p, TRBrace => Some ([finish p], SEnd)
  | SPort p, TId _ => Some ([], SId p)
  | STail tl, TId h => Some ([], SId (PEdge tl h ""))
  | SAttr p, TId k => Some ([], SAttrEq p k)
  | SAttr p, TRBrack => Some ([], SAfter p)
  | SAttr p, TComma => Some ([], SAttr p)
  | SAttr p, TSemi => Some ([], SAttr p)
  | SAttrEq p k, TEq => Some ([], SAttrVal p k)
  | SAttrVal p k, TId v => Some ([], SAttr (set_attr p k v))
  | SAfter p, TLBrack => Some ([], SAttr p)
  | SAfter p, TSemi => Some ([finish p], SStmt)
  | SAfter p, TId n => Some ([finish p], SId (PNode n))
  | SAfter p, TRBrace => Some ([finish p], SEnd)
  | _, _ => None
  end.

(** Modelled from the spec: the reader over the tokens; the statements
    of the graph in the order in which they are written. *)
Fixpoint parse_go (st : pstate) (acc : list stmt) (ts : list token)
    : option (list stmt) :=
  match ts with
  | [] => match st with SEnd => Some acc | _ => None end
  | t :: rest =>
      match pstep st t with
      | Some (out, st') => parse_go st' (acc ++ out) rest
      | None => None
      end
  end.

(** Modelled from the spec: reading a directed-graph description. *)
Definition parse_dot (t : string) : option (list stmt) :=
  match lex_go Idle t with
  | Some ts => parse_go H0 [] ts
  | None => None
  end.

(** Every double quote and the end of [s] follow an even number of
    backslashes ([odd]: the characters just before form an odd run of
    backslashes). Between double quotes a backslash before a double
    quote is an escape, so a string that fails this is read back
    without that backslash, or not at all. *)
Fixpoint even_backslashes (odd : bool) (s : string) : bool :=
  match s with
  | EmptyString => negb odd
  | String c t =>
      if Ascii.eqb c BSL then even_backslashes (negb odd) t
      else if Ascii.eqb c DQ then negb odd && even_backslashes false t
      else even_backslashes false t
  end.

(** [s] closes the [depth + 1] angle brackets that are open, the last
    of them with its last character. *)
Fixpoint closes (depth : nat) (s : string) : bool :=
  match s with
  | EmptyString => false
  | String c t =>
      if Ascii.eqb c "<" then closes (S depth) t
      else if Ascii.eqb c ">" then
        match depth with
        | O => String.eqb t ""
        | S depth' => closes depth' t
        end
      else closes depth t
  end.

(** [s] is one string between angle brackets, properly nested. *)
Definition well_nested (s : string) : bool :=
  match s with
  | String c t => Ascii.eqb c "<" && closes 0 t
  | EmptyString => false
  end.

(** A string that survives rendering, [str_to_dot] and reading: no tab
    and no line feed (which [str_to_dot] removes or replaces); when it
    is of the HTML-like form, which is written as it is, its angle
    brackets are properly nested; otherwise its backslashes do not
    escape a double quote or the closing quote. *)
Definition plain_value (s : string) : bool :=
  all_chars (no_char TAB) s && all_chars (no_char LF) s
  && (if html_like s then well_nested s else even_backslashes false s).

(** An end of an edge that survives: a plain string without a colon
    (which at the end of an edge starts a port). *)
Definition plain_name (s : string) : bool :=
  plain_value s && all_chars (no_char ":") s.

(** A statement that survives: a node with a plain name, an edge with
    plain ends without colons and a plain label. *)
Definition plain_stmt (st : stmt) : bool :=
  match st with
  | node_stmt n => plain_value n
  | edge_stmt t h l => plain_name t && plain_name h && plain_value l
  end.

(** A matrix and labels of which [make_graph] makes plain statements:
    every node name is plain and, for every cell above the threshold,
    the names of its column and of its row have no colon and the text
    of its value is plain. *)
Definition plain_inputs (str : float -> string) (M : Np.ndarray float)
    (labels : option (list string)) : bool :=
  let names := names_of M labels in
  forallb plain_value names
  && forallb (fun c => plain_stmt (edge_of str names c)) (hits M).

(** What may follow an identifier written without quotes: a character
    that belongs neither to a name nor to a numeral. *)
Definition delimited (rest : string) : bool :=
  match rest with
  | String c _ => negb (is_word_char c) && negb (is_num_char c)
  | EmptyString => false
  end.

(** The tokens of a statement as the engine writes it. *)
Definition toks_of (st : stmt) : list token :=
  match st with
  | node_stmt n => [TId n]
  | edge_stmt t h l =>
      [TId t; TArrow; TId h; TLBrack; TId "label"; TEq; TId l; TRBrack]
  end.

(** The tokens of statements separated by semicolons. *)
Fixpoint toks_body (b : list stmt) : list token :=
  match b with
  | [] => []
  | [st] => toks_of st
  | st :: rest => toks_of st ++ TSemi :: toks_body rest
  end.

From Stdlib Require Import DecimalNat.

(* ================================================================= *)
(** ** Further notions: endpoints of edges *)

(** The source and the target of an edge, without its label. *)
Definition endpoints (e : string * string * string) : string * string :=
  (fst (fst e), snd (fst e)).

(* ================================================================= *)
(** ** The cells of the notebook that call the two functions *)


Section DiscoveryLoop.
Variable str : float -> string.

(** What one discovery method does before [make_graph] is called:
    [obj = lib()], [output = obj.predict(data)] and
    [adj_matrix = np.asarray(nx.to_numpy_matrix(output))]. The
    discovery libraries are not part of the notebook; the step is any
    computation on the store that yields a reference. *)
Variable discover : string -> Store.M Store.ref.


End DiscoveryLoop.




(** [list(itertools.combinations(keys, 2))]: the pairs of different
    positions, in the order of the positions. *)
Fixpoint combinations2 {A} (l : list A) : list (A * A) :=
  match l with
  | [] => []
  | x :: rest => map (pair x) rest ++ combinations2 rest
  end.

(* ================================================================= *)
(** ** The functions on concrete inputs *)

Example make_graph_two_nodes :
  make_graph str_fixture [[0; 0.5]; [0.6; 0]]%float (Some ["A"; "B"])
  = Ok {| engine := "dot";
          body := [node_stmt "A"; node_stmt "B";
                   edge_stmt "B" "A" "0.5"; edge_stmt "A" "B" "0.6"] |}.
Proof. reflexivity. Qed.

Example make_graph_zero_matrix :
  make_graph str_fixture [[0; 0; 0]; [0; 0; 0]; [0; 0; 0]]%float
             (Some ["x0"; "x1"; "x2"])
  = Ok {| engine := "dot";
          body := [node_stmt "x0"; node_stmt "x1"; node_stmt "x2"] |}.
Proof. reflexivity. Qed.

Example make_graph_label_missing :
  make_graph str_fixture [[0; 0.5]; [0.6; 0]]%float (Some ["A"])
  = Raise IndexError.
Proof. reflexivity. Qed.

Example exceeds_boundary :
  exceeds 0.01%float = false /\ exceeds (-0.01)%float = false
  /\ exceeds 0.011%float = true /\ exceeds (-0.5)%float = true
  /\ exceeds PrimFloat.nan = false.
Proof. repeat split; reflexivity. Qed.

Example default_names_decimal :
  default_names (repeat (@nil float) 11)
  = ["x0"; "x1"; "x2"; "x3"; "x4"; "x5"; "x6"; "x7"; "x8"; "x9"; "x10"].
Proof. reflexivity. Qed.

Example strip_both_ends :
  strip (String LF (String TAB " a b  " ++ String LF "")) = "a b".
Proof. reflexivity. Qed.

Example slices_of_alphabet :
  slice "abcdefghijklmnop" None (Some 9%Z) = "abcdefghi"
  /\ slice "abcdefghijklmnop" (Some 10%Z) (Some (-2)%Z) = "klmn"
  /\ str_getitem "abcdefghijklmnop" (-1) = Ok "p"
  /\ slice "abc" (Some 10%Z) (Some (-2)%Z) = ""
  /\ str_getitem "" (-1) = Raise IndexError.
Proof. repeat split; reflexivity. Qed.

Example str_to_dot_rendered :
  str_to_dot "digraph {
	A
	B
	A -> B [label=0.6]
}
" = Ok "digraph {A;B;A -> B [label=0.6]}".
Proof. reflexivity. Qed.

Example str_to_dot_of_source :
  str_to_dot (source (fun n => n) (fun v => v)
                {| engine := "dot";
                   body := [node_stmt "A"; node_stmt "B";
                            edge_stmt "A" "B" "0.6"] |})
  = Ok "digraph {A;B;A -> B [label=0.6]}".
Proof. reflexivity. Qed.

(** The engine writes names and numerals as they are and puts the rest
    between double quotes. *)
Example gv_quote_forms :
  map gv_quote ["A"; "x0"; "0.5"; "-0.6"; "5."; "nan";
                "model year"; "p44/42"; "1e-05"; "node"; "<b>"]
  = ["A"; "x0"; "0.5"; "-0.6"; "5."; "nan";
     dquote "model year"; dquote "p44/42"; dquote "1e-05"; dquote "node";
     "<b>"].
Proof. reflexivity. Qed.

Example render_two_nodes :
  render {| engine := "dot";
            body := [node_stmt "A"; node_stmt "B"; edge_stmt "B" "A" "0.5";
                     edge_stmt "A" "B" "0.6"] |}
  = "digraph {
	A
	B
	B -> A [label=0.5]
	A -> B [label=0.6]
}
".
Proof. reflexivity. Qed.

(** The text of the pipeline for the 2 x 2 example, read. *)
Example parse_dot_pipeline_text :
  parse_dot "digraph {A;B;B -> A [label=0.5];A -> B [label=0.6]}"
  = Some [node_stmt "A"; node_stmt "B"; edge_stmt "B" "A" "0.5";
          edge_stmt "A" "B" "0.6"].
Proof. reflexivity. Qed.

(** Other ways to write a graph: edges without spaces and without
    attributes, a name of the graph, several attributes, ports. *)
Example parse_dot_other_forms :
  parse_dot "digraph {A->B;  C -> D}"
  = Some [edge_stmt "A" "B" ""; edge_stmt "C" "D" ""]
  /\ parse_dot "strict digraph G { A -> B [label=-0.5, color=red] [w=1]; x:p -> y:q:n }"
     = Some [edge_stmt "A" "B" "-0.5"; edge_stmt "x" "y" ""]
  /\ parse_dot ("digraph {" ++ dquote "model year" ++ " -> B [label="
                ++ dquote "0.5" ++ "]}")
     = Some [edge_stmt "model year" "B" "0.5"]
  /\ parse_dot "digraph {A -> }" = None
  /\ parse_dot "digraph {A" = None.
Proof. repeat split; reflexivity. Qed.
(* ================================================================= *)
(** ** Facts about the enumeration *)

Lemma squareb_spec {A} (N : nat) (M : Np.ndarray A) :
  squareb N M = true <-> square N M.
Proof.
  unfold squareb, square.
  rewrite andb_true_iff, Nat.eqb_eq, forallb_forall, Forall_forall.
  split; intros [HN Hrows]; split; auto; intros row Hin.
  - apply Nat.eqb_eq; auto.
  - apply Nat.eqb_eq; auto.
Qed.

Lemma enumerate_from_cons {A} (s : nat) (x : A) (l : list A) :
  enumerate_from s (x :: l) = (s, x) :: enumerate_from (S s) l.
Proof. reflexivity. Qed.

Lemma In_enumerate_from {A} (l : list A) : forall s i x,
  In (i, x) (enumerate_from s l) <-> s <= i /\ nth_error l (i - s) = Some x.
Proof.
  induction l as [|y l IH]; intros s i x.
  - cbn. split; [tauto|]. intros [_ H]. destruct (i - s); discriminate.
  - rewrite enumerate_from_cons. cbn [In]. rewrite IH. split.
    + intros [Heq | [Hle Hnth]].
      * inversion Heq; subst. rewrite Nat.sub_diag. auto.
      * split; [lia|]. replace (i - s) with (S (i - S s)) by lia. exact Hnth.
    + intros [Hle Hnth]. destruct (Nat.eq_dec s i) as [->|Hne].
      * rewrite Nat.sub_diag in Hnth. cbn in Hnth. left. congruence.
      * right. split; [lia|].
        replace (i - s) with (S (i - S s)) in Hnth by lia. exact Hnth.
Qed.

Lemma enumerate_from_fst_sorted {A} (l : list A) : forall s,
  StronglySorted lt (map fst (enumerate_from s l)).
Proof.
  induction l as [|y l IH]; intros s; [constructor|].
  rewrite enumerate_from_cons. cbn [map fst]. constructor; [apply IH|].
  apply Forall_forall. intros k Hk. apply in_map_iff in Hk.
  destruct Hk as [[k' x] [<- Hin]]. apply In_enumerate_from in Hin. cbn. lia.
Qed.

Lemma cells_from_cons {A} (s : nat) (row : list A) (M : Np.ndarray A) :
  cells_from s (row :: M)
  = map (pair s) (enumerate_from 0 row) ++ cells_from (S s) M.
Proof. reflexivity. Qed.

Lemma In_cells_from {A} (M : Np.ndarray A) : forall s i j w,
  In (i, (j, w)) (cells_from s M) <-> s <= i /\ cell M (i - s) j = Some w.
Proof.
  intros s i j w. unfold cells_from, cell. rewrite in_flat_map. split.
  - intros [[k row] [Hrow Hin]]. cbn [fst snd] in Hin.
    apply in_map_iff in Hin. destruct Hin as [[j' w'] [Heq Hin]].
    inversion Heq; subst. apply In_enumerate_from in Hrow, Hin.
    destruct Hrow as [Hle Hrow]. split; [exact Hle|]. rewrite Hrow.
    rewrite Nat.sub_0_r in Hin. tauto.
  - intros [Hle Hc]. destruct (nth_error M (i - s)) as [row|] eqn:Hrow;
      [|discriminate].
    exists (i, row). split; [apply In_enumerate_from; auto|].
    cbn [fst snd]. apply in_map. apply In_enumerate_from.
    rewrite Nat.sub_0_r. split; [lia | exact Hc].
Qed.

Lemma In_cells {A} (M : Np.ndarray A) (i j : nat) (w : A) :
  In (i, (j, w)) (cells M) <-> cell M i j = Some w.
Proof.
  unfold cells. rewrite In_cells_from, Nat.sub_0_r. split; [tauto|].
  split; [lia | assumption].
Qed.

Lemma StronglySorted_app {A} (R : A -> A -> Prop) (l1 l2 : list A) :
  StronglySorted R l1 -> StronglySorted R l2 ->
  (forall x y, In x l1 -> In y l2 -> R x y) ->
  StronglySorted R (l1 ++ l2).
Proof.
  induction l1 as [|a l1 IH]; intros H1 H2 H12; [exact H2|].
  inversion H1 as [|? ? Hs Hall]; subst. cbn. constructor.
  - apply IH; auto. intros x y Hx Hy. apply H12; [right|]; auto.
  - apply Forall_app. split; [exact Hall|].
    apply Forall_forall. intros y Hy. apply H12; [left; reflexivity | exact Hy].
Qed.

Lemma row_sorted {A} (s : nat) (e : list (nat * A)) :
  StronglySorted lt (map fst e) ->
  StronglySorted rm_lt (map (fun x => (s, fst x)) e).
Proof.
  induction e as [|x e IH]; intros Hs; [constructor|].
  cbn in Hs |- *. inversion Hs as [|? ? Hs' Hall]; subst.
  constructor; [apply IH; exact Hs'|].
  rewrite Forall_map in Hall |- *. eapply Forall_impl; [|exact Hall].
  intros y Hy. right. cbn. auto.
Qed.

Lemma cells_from_sorted {A} (M : Np.ndarray A) : forall s,
  StronglySorted rm_lt (map index_of (cells_from s M)).
Proof.
  induction M as [|row M IH]; intros s; [constructor|].
  rewrite cells_from_cons, map_app. apply StronglySorted_app.
  - rewrite map_map. unfold index_of. cbn [fst snd].
    apply row_sorted, enumerate_from_fst_sorted.
  - apply IH.
  - intros x y Hx Hy. apply in_map_iff in Hx, Hy.
    destruct Hx as [cx [<- Hx]], Hy as [[i [j w]] [<- Hy]].
    apply in_map_iff in Hx. destruct Hx as [jw [<- _]].
    apply In_cells_from in Hy. unfold rm_lt, index_of. cbn. lia.
Qed.

Lemma cells_sorted {A} (M : Np.ndarray A) :
  StronglySorted rm_lt (map index_of (cells M)).
Proof. apply cells_from_sorted. Qed.

(* ================================================================= *)
(** ** The numpy pipeline computes the hits *)

Lemma combine_app_eq {A B} (a1 a2 : list A) (b1 b2 : list B) :
  List.length a1 = List.length b1 ->
  combine (a1 ++ a2) (b1 ++ b2) = combine a1 b1 ++ combine a2 b2.
Proof.
  revert b1. induction a1 as [|x a1 IH]; intros [|y b1] Hlen;
    try discriminate; [reflexivity|].
  cbn. f_equal. apply IH. cbn in Hlen. lia.
Qed.

Lemma combine_const {A B C} (i : A) (l : list B) (X : list C) :
  List.length l = List.length X ->
  combine (map (fun _ => i) l) X = map (pair i) X.
Proof.
  revert X. induction l as [|x l IH]; intros [|y X] Hlen;
    try discriminate; [reflexivity|].
  cbn. f_equal. apply IH. cbn in Hlen. lia.
Qed.

Lemma filter_map_pair {A B} (i : A) (p : B -> bool) (l : list B) :
  filter (fun c => p (snd c)) (map (pair i) l) = map (pair i) (filter p l).
Proof.
  induction l as [|x l IH]; [reflexivity|].
  cbn. destruct (p x); cbn; rewrite IH; reflexivity.
Qed.

Section Mask.
Context {A : Type} (p : A -> bool).

Lemma select_row_length (row : list A) : forall j,
  List.length (Np.true_cols j (map p row))
  = List.length (Np.select_row row (map p row)).
Proof.
  induction row as [|x row IH]; intros j; [reflexivity|].
  cbn. destruct (p x); cbn; rewrite (IH (S j)); reflexivity.
Qed.

Lemma select_row_enumerate (row : list A) : forall j,
  combine (Np.true_cols j (map p row)) (Np.select_row row (map p row))
  = filter (fun jw => p (snd jw)) (enumerate_from j row).
Proof.
  induction row as [|x row IH]; intros j; [reflexivity|].
  rewrite enumerate_from_cons. cbn. destruct (p x); cbn; rewrite IH; reflexivity.
Qed.

Lemma where_length (M : Np.ndarray A) : forall i,
  List.length (Np.where_from i (map (map p) M))
  = List.length (Np.boolean_index M (map (map p) M)).
Proof.
  induction M as [|row M IH]; intros i; [reflexivity|].
  cbn. rewrite !length_app, length_map, (IH (S i)), select_row_length.
  reflexivity.
Qed.

Lemma where_cells (M : Np.ndarray A) : forall i,
  let h := Np.where_from i (map (map p) M) in
  combine (map fst h) (combine (map snd h) (Np.boolean_index M (map (map p) M)))
  = filter (fun c => p (snd (snd c))) (cells_from i M).
Proof.
  induction M as [|row M IH]; intros i; [reflexivity|].
  cbn zeta in IH |- *. cbn [map Np.where_from Np.boolean_index].
  rewrite cells_from_cons, filter_app, !map_app, !map_map. cbn [fst snd].
  rewrite map_id.
  rewrite (combine_app_eq _ _ _ _ (select_row_length row 0)).
  rewrite combine_app_eq.
  - rewrite IH. f_equal.
    rewrite combine_const.
    + rewrite select_row_enumerate.
      rewrite (filter_map_pair i (fun jw => p (snd jw))). reflexivity.
    + rewrite length_combine, <- (select_row_length row 0), Nat.min_id.
      reflexivity.
  - rewrite length_map, length_combine, <- (select_row_length row 0), Nat.min_id.
    reflexivity.
Qed.
End Mask.

Lemma mask_exceeds (M : Np.ndarray float) :
  Np.gt (Np.abs M) threshold = map (map exceeds) M.
Proof.
  unfold Np.gt, Np.abs. rewrite map_map. apply map_ext. intros row.
  rewrite map_map. reflexivity.
Qed.

(** [zip(dirs[0], dirs[1], adjacency_matrix[idx])] is the list of the
    cells above the threshold, each with its row and column, in
    row-major order. *)
Lemma zip_hits (M : Np.ndarray float) :
  let idx := Np.gt (Np.abs M) threshold in
  let dirs := Np.where_ idx in
  combine (fst dirs) (combine (snd dirs) (Np.boolean_index M idx)) = hits M.
Proof.
  cbn zeta. rewrite mask_exceeds. unfold Np.where_. cbn [fst snd].
  apply (where_cells exceeds M 0).
Qed.

(* ================================================================= *)
(** ** What [make_graph] returns *)

Lemma getitem_lt {A} (l : list A) (i : nat) (dflt : A) :
  i < List.length l -> getitem l i = Ok (nth i l dflt).
Proof.
  intros Hlt. unfold getitem.
  rewrite (nth_error_nth' l dflt Hlt). reflexivity.
Qed.

Lemma getitem_ge {A} (l : list A) (i : nat) :
  List.length l <= i -> getitem l i = Raise IndexError.
Proof.
  intros Hge. unfold getitem.
  apply nth_error_None in Hge. rewrite Hge. reflexivity.
Qed.

Lemma add_nodes_spec (names : list string) : forall d,
  add_nodes d names
  = {| engine := engine d; body := body d ++ map node_stmt names |}.
Proof.
  unfold add_nodes.
  induction names as [|n names IH]; intros d; cbn.
  - rewrite app_nil_r. destruct d; reflexivity.
  - rewrite IH. cbn. rewrite <- app_assoc. reflexivity.
Qed.

Section MakeGraphSpec.
Variable str : float -> string.

Lemma add_edges_spec (names : list string) (hs : list (nat * (nat * float))) :
  forall d,
  add_edges str names d hs
  = if forallb (in_range (List.length names)) hs
    then Ok {| engine := engine d;
               body := body d ++ map (edge_of str names) hs |}
    else Raise IndexError.
Proof.
  induction hs as [|[to [from_ coef]] hs IH]; intros d.
  - cbn. rewrite app_nil_r. destruct d; reflexivity.
  - cbn [add_edges forallb]. unfold in_range at 1. cbn [fst snd].
    destruct (Nat.ltb_spec from_ (List.length names)) as [Hf|Hf].
    + rewrite (getitem_lt names "" Hf). cbn [bind].
      destruct (Nat.ltb_spec to (List.length names)) as [Ht|Ht].
      * rewrite (getitem_lt names "" Ht). cbn [bind andb].
        rewrite IH. cbn [engine body edge map].
        rewrite <- app_assoc. reflexivity.
      * rewrite (getitem_ge names Ht). reflexivity.
    + rewrite (getitem_ge names Hf). cbn [bind].
      rewrite andb_false_r. reflexivity.
Qed.

(** The whole function in one equation: the nodes are the names, the
    edges are the hits in row-major order, and the call raises
    exactly when a hit has a row or column without a name. *)
Lemma make_graph_spec (M : Np.ndarray float) (labels : option (list string)) :
  let names := names_of M labels in
  make_graph str M labels
  = if forallb (in_range (List.length names)) (hits M)
    then Ok {| engine := "dot";
               body := map node_stmt names ++ map (edge_of str names) (hits M) |}
    else Raise IndexError.
Proof.
  cbn zeta. unfold make_graph. rewrite zip_hits, add_edges_spec, add_nodes_spec.
  reflexivity.
Qed.

Lemma hits_in_range (N : nat) (M : Np.ndarray float) :
  square N M -> forallb (in_range N) (hits M) = true.
Proof.
  intros [HN Hrows]. apply forallb_forall. intros [i [j w]] Hin.
  unfold hits in Hin. apply filter_In in Hin. destruct Hin as [Hin _].
  apply In_cells in Hin. unfold cell in Hin.
  destruct (nth_error M i) as [row|] eqn:Hrow; [|discriminate].
  assert (Hi : i < N).
  { rewrite <- HN. apply nth_error_Some. congruence. }
  assert (Hj : j < N).
  { rewrite Forall_forall in Hrows.
    rewrite <- (Hrows row (nth_error_In _ _ Hrow)).
    apply nth_error_Some. congruence. }
  unfold in_range. cbn [fst snd].
  apply andb_true_iff. split; apply Nat.ltb_lt; assumption.
Qed.

Lemma nodes_of_body (names : list string) (hs : list (nat * (nat * float))) :
  flat_map (fun s => match s with node_stmt n => [n] | _ => [] end)
           (map node_stmt names ++ map (edge_of str names) hs) = names.
Proof.
  rewrite flat_map_app.
  replace (flat_map _ (map (edge_of str names) hs)) with (@nil string).
  - rewrite app_nil_r. induction names as [|n names IH]; cbn; congruence.
  - induction hs as [|h hs IH]; cbn; auto.
Qed.

Lemma edges_of_body (names : list string) (hs : list (nat * (nat * float))) :
  flat_map (fun s => match s with
                     | edge_stmt t h l => [(t, h, l)]
                     | _ => []
                     end)
           (map node_stmt names ++ map (edge_of str names) hs)
  = map (fun c => (nth (fst (snd c)) names "", nth (fst c) names "",
                   str (snd (snd c)))) hs.
Proof.
  rewrite flat_map_app.
  replace (flat_map _ (map node_stmt names)) with (@nil (string * string * string)).
  - cbn [app]. induction hs as [|h hs IH]; cbn; congruence.
  - induction names as [|n names IH]; cbn; auto.
Qed.

Lemma default_names_length (M : Np.ndarray float) :
  List.length (default_names M) = List.length M.
Proof. unfold default_names. rewrite length_map, length_seq. reflexivity. Qed.

End MakeGraphSpec.

(* ================================================================= *)
(** ** Square matrices: the enumeration by index *)

Lemma flat_map_ext_in {A B} (f g : A -> list B) (l : list A) :
  (forall a, In a l -> f a = g a) -> flat_map f l = flat_map g l.
Proof.
  induction l as [|x l IH]; intros H; [reflexivity|].
  cbn. rewrite (H x (or_introl eq_refl)), IH; [reflexivity|].
  intros a Ha. apply H. right. exact Ha.
Qed.

Lemma enumerate_from_nth {A} (dflt : A) (l : list A) : forall s,
  enumerate_from s l
  = map (fun j => (j, nth (j - s) l dflt)) (seq s (List.length l)).
Proof.
  induction l as [|x l IH]; intros s; [reflexivity|].
  rewrite enumerate_from_cons. cbn [List.length seq map].
  rewrite Nat.sub_diag. cbn [nth]. f_equal.
  rewrite IH. apply map_ext_in. intros j Hj. apply in_seq in Hj.
  replace (j - s) with (S (j - S s)) by lia. reflexivity.
Qed.

Lemma cells_from_index (N : nat) (M : Np.ndarray float) : forall s,
  Forall (fun row => List.length row = N) M ->
  cells_from s M
  = flat_map (fun i => map (fun j => (i, (j, at_ M (i - s) j))) (seq 0 N))
             (seq s (List.length M)).
Proof.
  induction M as [|row M IH]; intros s Hrows; [reflexivity|].
  inversion Hrows as [|? ? Hrow Hrest]; subst.
  rewrite cells_from_cons. cbn [List.length seq flat_map]. f_equal.
  - rewrite (enumerate_from_nth 0%float row 0), map_map.
    apply map_ext. intros j. unfold at_.
    rewrite Nat.sub_diag, Nat.sub_0_r. reflexivity.
  - rewrite (IH (S s) Hrest). apply flat_map_ext_in. intros i Hi.
    apply in_seq in Hi. apply map_ext. intros j. unfold at_.
    replace (i - s) with (S (i - S s)) by lia. reflexivity.
Qed.

Lemma list_prod_flat_map {A B} (l : list A) (l' : list B) :
  list_prod l l' = flat_map (fun x => map (pair x) l') l.
Proof.
  induction l as [|x l IH]; [reflexivity|].
  cbn. rewrite IH. reflexivity.
Qed.

Lemma map_of_flat_map {A B C} (f : B -> C) (g : A -> list B) (l : list A) :
  map f (flat_map g l) = flat_map (fun x => map f (g x)) l.
Proof.
  induction l as [|x l IH]; [reflexivity|].
  cbn. rewrite map_app, IH. reflexivity.
Qed.

(** On a square matrix the cells are the index pairs in row-major
    order, each with the value stored there. *)
Lemma cells_square (N : nat) (M : Np.ndarray float) :
  square N M ->
  cells M
  = map (fun ij => (fst ij, (snd ij, at_ M (fst ij) (snd ij)))) (row_major N N).
Proof.
  intros [HN Hrows]. unfold cells, row_major.
  rewrite (cells_from_index 0 Hrows), HN, list_prod_flat_map.
  rewrite map_of_flat_map.
  apply flat_map_ext. intros i. rewrite map_map. cbn [fst snd].
  rewrite Nat.sub_0_r. reflexivity.
Qed.

Lemma filter_map_swap' {A B} (f : A -> B) (p : B -> bool) (l : list A) :
  filter p (map f l) = map f (filter (fun x => p (f x)) l).
Proof.
  induction l as [|x l IH]; [reflexivity|].
  cbn. destruct (p (f x)); cbn; rewrite IH; reflexivity.
Qed.

Lemma hits_square (N : nat) (M : Np.ndarray float) :
  square N M ->
  hits M
  = map (fun ij => (fst ij, (snd ij, at_ M (fst ij) (snd ij))))
        (filter (fun ij => exceeds (at_ M (fst ij) (snd ij))) (row_major N N)).
Proof.
  intros Hsq. unfold hits. rewrite (cells_square Hsq), filter_map_swap'.
  reflexivity.
Qed.

Lemma hits_count (N : nat) (M : Np.ndarray float) :
  square N M -> List.length (hits M) = count_above N M.
Proof.
  intros Hsq. rewrite (hits_square Hsq), length_map. reflexivity.
Qed.

Lemma In_hits (M : Np.ndarray float) (i j : nat) (w : float) :
  In (i, (j, w)) (hits M) <-> cell M i j = Some w /\ exceeds w = true.
Proof.
  unfold hits. rewrite filter_In, In_cells. reflexivity.
Qed.

Lemma StronglySorted_map_filter {A B} (R : B -> B -> Prop) (f : A -> B)
    (p : A -> bool) (l : list A) :
  StronglySorted R (map f l) -> StronglySorted R (map f (filter p l)).
Proof.
  induction l as [|x l IH]; intros Hs; [constructor|].
  cbn in Hs. inversion Hs as [|? ? Hs' Hall]; subst.
  cbn. destruct (p x); [|apply IH; exact Hs'].
  cbn. constructor; [apply IH; exact Hs'|].
  rewrite Forall_map in Hall |- *. rewrite Forall_forall in Hall |- *.
  intros y Hy. apply filter_In in Hy. apply Hall. tauto.
Qed.

Lemma hits_sorted (M : Np.ndarray float) :
  StronglySorted rm_lt (map index_of (hits M)).
Proof. apply StronglySorted_map_filter, cells_sorted. Qed.

Lemma names_of_valid (N : nat) (M : Np.ndarray float) (L : list string) :
  List.length M = N -> List.length L = N -> names_of M (Some L) = L.
Proof.
  intros HM HL. unfold names_of. destruct L as [|l L]; [|reflexivity].
  cbn in HL. subst N. destruct M; [reflexivity | discriminate].
Qed.

Lemma names_of_length (N : nat) (M : Np.ndarray float)
    (labels : option (list string)) :
  List.length M = N -> valid_labels N labels ->
  List.length (names_of M labels) = N.
Proof.
  intros HM Hv. destruct labels as [L|].
  - cbn in Hv. rewrite (names_of_valid M L HM Hv). exact Hv.
  - cbn. rewrite default_names_length. exact HM.
Qed.

(** On a square matrix with fitting labels the call returns, and the
    graph is the one [make_graph_spec] describes. *)
Lemma make_graph_square (str : float -> string) (N : nat)
    (M : Np.ndarray float) (labels : option (list string)) :
  square N M -> valid_labels N labels ->
  make_graph str M labels
  = Ok {| engine := "dot";
          body := map node_stmt (names_of M labels)
                  ++ map (edge_of str (names_of M labels)) (hits M) |}.
Proof.
  intros Hsq Hv. rewrite make_graph_spec.
  rewrite (names_of_length M labels (proj1 Hsq) Hv), (hits_in_range Hsq).
  reflexivity.
Qed.

(* ================================================================= *)
(** ** [make_graph]: edges, nodes, counts and failures *)

Lemma In_row_major (n m i j : nat) :
  In (i, j) (row_major n m) <-> i < n /\ j < m.
Proof.
  unfold row_major. rewrite in_prod_iff, !in_seq. lia.
Qed.

Lemma row_of_grid_sorted (s m : nat) : forall t,
  StronglySorted rm_lt (map (fun y => (s, y)) (seq t m)).
Proof.
  induction m as [|m IHm]; intros t; [constructor|].
  cbn [seq map]. constructor; [apply IHm|].
  apply Forall_forall. intros [a b] Hin. apply in_map_iff in Hin.
  destruct Hin as [b' [Heq Hin]]. inversion Heq; subst.
  apply in_seq in Hin. right. cbn. lia.
Qed.

Lemma row_major_sorted (n m : nat) : StronglySorted rm_lt (row_major n m).
Proof.
  unfold row_major. generalize 0 at 1. induction n as [|n IH]; intros s.
  - constructor.
  - cbn [seq list_prod]. apply StronglySorted_app.
    + apply row_of_grid_sorted.
    + apply IH.
    + intros [a b] [c e] Hx Hy. apply in_map_iff in Hx.
      destruct Hx as [b' [Heq _]]. inversion Heq; subst.
      apply in_prod_iff in Hy. destruct Hy as [Hy _]. apply in_seq in Hy.
      left. cbn. lia.
Qed.

Lemma StronglySorted_NoDup {A} (R : A -> A -> Prop) (l : list A) :
  (forall x, ~ R x x) -> StronglySorted R l -> NoDup l.
Proof.
  intros Hirr Hs. induction Hs as [|x l Hs IH Hall]; constructor; [|exact IH].
  intros Hin. rewrite Forall_forall in Hall. exact (Hirr x (Hall x Hin)).
Qed.

Lemma row_major_NoDup (n m : nat) : NoDup (row_major n m).
Proof.
  apply (StronglySorted_NoDup (R := rm_lt)); [|apply row_major_sorted].
  intros [a b]. unfold rm_lt. cbn. lia.
Qed.

Lemma make_graph_edges (str : float -> string) (N : nat)
    (M : Np.ndarray float) (labels : option (list string)) :
  square N M -> valid_labels N labels ->
  exists d, make_graph str M labels = Ok d
    /\ nodes d = names_of M labels
    /\ edges d = map (edge_at str (names_of M labels) M)
                     (filter (above M) (row_major N N)).
Proof.
  intros Hsq Hv. eexists. split; [apply (@make_graph_square str N M labels Hsq Hv)|].
  unfold nodes, edges, node_names, edge_triples. cbn [body].
  split; [apply nodes_of_body|].
  rewrite edges_of_body, (hits_square Hsq), map_map. reflexivity.
Qed.

(** C1. On a square matrix with fitting labels, [make_graph] declares
    one edge for each cell (row = target, column = source) whose
    absolute value exceeds 0.01, from [names[column]] to [names[row]],
    labelled with [str] of the cell, and the edges come in row-major
    order of the cells (each index pair is visited once, rows first).
    For [[0, 0.5], [0.6, 0]] with labels A, B the nodes are A, B and
    the edges are B -> A labelled 0.5 and A -> B labelled 0.6. *)
Theorem make_graph_edges_row_major (str : float -> string) (N : nat)
    (M : Np.ndarray float) (labels : option (list string)) :
  square N M -> valid_labels N labels ->
  (exists d, make_graph str M labels = Ok d
     /\ edges d = map (edge_at str (names_of M labels) M)
                      (filter (above M) (row_major N N)))
  /\ NoDup (row_major N N)
  /\ StronglySorted rm_lt (row_major N N)
  /\ (forall i j, In (i, j) (row_major N N) <-> i < N /\ j < N)
  /\ (str 0.5%float = "0.5" -> str 0.6%float = "0.6" ->
      exists d, make_graph str [[0; 0.5]; [0.6; 0]]%float (Some ["A"; "B"]) = Ok d
        /\ nodes d = ["A"; "B"]
        /\ edges d = [("B", "A", "0.5"); ("A", "B", "0.6")]).
Proof.
  intros Hsq Hv. split; [|split; [|split; [|split]]].
  - destruct (@make_graph_edges str N M labels Hsq Hv) as [d [Hd [_ He]]]. eauto.
  - apply row_major_NoDup.
  - apply row_major_sorted.
  - intros i j. apply In_row_major.
  - intros H5 H6.
    assert (Hsq2 : square 2 [[0; 0.5]; [0.6; 0]]%float)
      by (apply squareb_spec; reflexivity).
    destruct (@make_graph_edges str 2 _ (Some ["A"; "B"]) Hsq2 eq_refl)
      as [d [Hd [Hn He]]].
    exists d. split; [exact Hd|]. split; [exact Hn|].
    rewrite He. cbn. unfold edge_at, at_. cbn. rewrite H5, H6. reflexivity.
Qed.

(** C1 on the 2 x 2 example of the specification, with labels A and B. *)
Lemma make_graph_edges_row_major_witness :
  square 2 [[0; 0.5]; [0.6; 0]]%float
  /\ valid_labels 2 (Some ["A"; "B"])
  /\ str_fixture 0.5%float = "0.5" /\ str_fixture 0.6%float = "0.6"
  /\ exists d,
       make_graph str_fixture [[0; 0.5]; [0.6; 0]]%float (Some ["A"; "B"]) = Ok d
       /\ nodes d = ["A"; "B"]
       /\ edges d = [("B", "A", "0.5"); ("A", "B", "0.6")].
Proof.
  assert (Hsq : square 2 [[0; 0.5]; [0.6; 0]]%float)
    by (apply squareb_spec; reflexivity).
  split; [exact Hsq|]. split; [reflexivity|].
  split; [reflexivity|]. split; [reflexivity|].
  destruct (@make_graph_edges_row_major str_fixture 2 _ (Some ["A"; "B"])
              Hsq eq_refl) as [_ [_ [_ [_ Hex]]]].
  exact (Hex eq_refl eq_refl).
Defined.

(** C4. On a square matrix the number of edges is the number of cells
    whose absolute value exceeds 0.01; the comparison is strict, so a
    cell whose absolute value is exactly 0.01 is not among the cells
    that get an edge. *)
Theorem make_graph_edge_count (str : float -> string) (N : nat)
    (M : Np.ndarray float) (labels : option (list string)) :
  square N M -> valid_labels N labels ->
  (exists d, make_graph str M labels = Ok d
     /\ List.length (edges d) = count_above N M
     /\ edges d = map (edge_at str (names_of M labels) M)
                      (filter (above M) (row_major N N)))
  /\ (forall w, PrimFloat.abs w = threshold -> exceeds w = false)
  /\ (forall i j, PrimFloat.abs (at_ M i j) = threshold ->
        ~ In (i, j) (filter (above M) (row_major N N))).
Proof.
  intros Hsq Hv.
  assert (Hstrict : forall w, PrimFloat.abs w = threshold -> exceeds w = false).
  { intros w Hw. unfold exceeds. rewrite Hw. reflexivity. }
  split; [|split; [exact Hstrict|]].
  - destruct (@make_graph_edges str N M labels Hsq Hv) as [d [Hd [_ He]]].
    exists d. split; [exact Hd|]. split; [|exact He].
    rewrite He, length_map. reflexivity.
  - intros i j Hw Hin. apply filter_In in Hin. destruct Hin as [_ Hab].
    unfold above in Hab. cbn [fst snd] in Hab.
    rewrite (Hstrict _ Hw) in Hab. discriminate.
Qed.

(** C4 on a matrix with 0.01 and -0.01 among its cells: one edge. *)
Lemma make_graph_edge_count_witness :
  square 2 [[0.01; 0.5]; [-0.01; 0]]%float
  /\ valid_labels 2 None
  /\ exists d,
       make_graph str_fixture [[0.01; 0.5]; [-0.01; 0]]%float None = Ok d
       /\ List.length (edges d) = 1.
Proof.
  assert (Hsq : square 2 [[0.01; 0.5]; [-0.01; 0]]%float)
    by (apply squareb_spec; reflexivity).
  split; [exact Hsq|]. split; [exact I|].
  destruct (@make_graph_edge_count str_fixture 2 _ None Hsq I)
    as [[d [Hd [Hc _]]] _].
  exists d. split; [exact Hd|]. rewrite Hc. reflexivity.
Defined.

(** C5. On an N x N matrix with N labels, [make_graph] declares exactly
    N nodes, the labels in index order; without labels the nodes are
    x0, x1, ..., x(N-1) in index order. *)
Theorem make_graph_nodes (str : float -> string) (N : nat)
    (M : Np.ndarray float) :
  square N M ->
  (forall L, List.length L = N ->
     exists d, make_graph str M (Some L) = Ok d
       /\ nodes d = L /\ List.length (nodes d) = N)
  /\ (exists d, make_graph str M None = Ok d
        /\ nodes d = map (fun i => ("x" ++ format_int i)%string) (seq 0 N)
        /\ List.length (nodes d) = N).
Proof.
  intros Hsq. split.
  - intros L HL.
    destruct (@make_graph_edges str N M (Some L) Hsq HL) as [d [Hd [Hn _]]].
    rewrite (names_of_valid M L (proj1 Hsq) HL) in Hn.
    exists d. rewrite Hn. auto.
  - destruct (@make_graph_edges str N M None Hsq I) as [d [Hd [Hn _]]].
    exists d. split; [exact Hd|]. rewrite Hn. cbn [names_of].
    unfold default_names. rewrite (proj1 Hsq), length_map, length_seq. auto.
Qed.

(** C5 on the 3 x 3 zero matrix, with three labels and without. *)
Lemma make_graph_nodes_witness :
  square 3 [[0; 0; 0]; [0; 0; 0]; [0; 0; 0]]%float
  /\ (exists d, make_graph str_fixture [[0; 0; 0]; [0; 0; 0]; [0; 0; 0]]%float
                  (Some ["mpg"; "weight"; "horsepower"]) = Ok d
        /\ nodes d = ["mpg"; "weight"; "horsepower"])
  /\ (exists d, make_graph str_fixture [[0; 0; 0]; [0; 0; 0]; [0; 0; 0]]%float
                  None = Ok d
        /\ nodes d = ["x0"; "x1"; "x2"]).
Proof.
  assert (Hsq : square 3 [[0; 0; 0]; [0; 0; 0]; [0; 0; 0]]%float)
    by (apply squareb_spec; reflexivity).
  split; [exact Hsq|].
  destruct (@make_graph_nodes str_fixture 3 _ Hsq) as [HL [d [Hd [Hn _]]]].
  split.
  - destruct (HL ["mpg"; "weight"; "horsepower"] eq_refl) as [d' [Hd' [Hn' _]]].
    exists d'. auto.
  - exists d. split; [exact Hd|]. rewrite Hn. reflexivity.
Defined.

(** C10. An empty labels list is falsy, so it is treated like absent
    labels: on an N x N matrix with N > 0 the call returns and the
    nodes are x0, ..., x(N-1), not the (empty) labels. *)
Theorem make_graph_empty_labels (str : float -> string) (N : nat)
    (M : Np.ndarray float) :
  square N M -> 0 < N ->
  make_graph str M (Some []) = make_graph str M None
  /\ exists d, make_graph str M (Some []) = Ok d
       /\ nodes d = map (fun i => ("x" ++ format_int i)%string) (seq 0 N)
       /\ List.length (nodes d) = N.
Proof.
  intros Hsq HN. split; [reflexivity|].
  change (make_graph str M (Some [])) with (make_graph str M None).
  destruct (@make_graph_edges str N M None Hsq I) as [d [Hd [Hn _]]].
  exists d. split; [exact Hd|]. rewrite Hn. cbn [names_of].
  unfold default_names. rewrite (proj1 Hsq), length_map, length_seq. auto.
Qed.

(** C10 on the 2 x 2 example with an empty list of labels. *)
Lemma make_graph_empty_labels_witness :
  square 2 [[0; 0.5]; [0.6; 0]]%float
  /\ 0 < 2
  /\ exists d, make_graph str_fixture [[0; 0.5]; [0.6; 0]]%float (Some []) = Ok d
       /\ nodes d = ["x0"; "x1"].
Proof.
  assert (Hsq : square 2 [[0; 0.5]; [0.6; 0]]%float)
    by (apply squareb_spec; reflexivity).
  split; [exact Hsq|]. split; [lia|].
  destruct (@make_graph_empty_labels str_fixture 2 _ Hsq (Nat.lt_0_succ 1))
    as [_ [d [Hd [Hn _]]]].
  exists d. split; [exact Hd|]. rewrite Hn. reflexivity.
Defined.

Lemma forallb_false_In {A} (p : A -> bool) (l : list A) :
  forallb p l = false -> exists x, In x l /\ p x = false.
Proof.
  induction l as [|x l IH]; cbn; [discriminate|].
  destruct (p x) eqn:Hp; cbn.
  - intros H. destruct (IH H) as [y [Hy Hpy]]. eauto.
  - intros _. eauto.
Qed.

Lemma hits_all_in_range (n : nat) (M : Np.ndarray float) :
  forallb (in_range n) (hits M) = true
  <-> (forall i j w, cell M i j = Some w -> exceeds w = true -> i < n /\ j < n).
Proof.
  rewrite forallb_forall. split.
  - intros H i j w Hc He.
    specialize (H (i, (j, w)) (proj2 (In_hits M i j w) (conj Hc He))).
    unfold in_range in H. cbn [fst snd] in H.
    apply andb_true_iff in H. rewrite !Nat.ltb_lt in H. exact H.
  - intros H [i [j w]] Hin. apply In_hits in Hin. destruct Hin as [Hc He].
    destruct (H i j w Hc He) as [Hi Hj]. unfold in_range. cbn [fst snd].
    apply andb_true_iff. rewrite !Nat.ltb_lt. auto.
Qed.

(** C2, as the code has it. [make_graph] checks neither the number of
    labels nor the shape of the matrix. It raises (an [IndexError], from
    [names[from_]] or [names[to]]) exactly when some cell above the
    threshold sits in a row or a column that has no name; in every
    other case it returns a graph whose nodes are the names, whatever
    their number. *)
Theorem make_graph_raises_iff (str : float -> string)
    (M : Np.ndarray float) (labels : option (list string)) :
  (make_graph str M labels = Raise IndexError
   <-> exists i j w, cell M i j = Some w /\ exceeds w = true
         /\ (List.length (names_of M labels) <= i
             \/ List.length (names_of M labels) <= j))
  /\ (make_graph str M labels <> Raise IndexError
      <-> exists d, make_graph str M labels = Ok d
            /\ nodes d = names_of M labels).
Proof.
  rewrite make_graph_spec. cbn zeta.
  destruct (forallb (in_range (List.length (names_of M labels))) (hits M))
    eqn:Hall.
  - split; split.
    + discriminate.
    + intros [i [j [w [Hc [He Hout]]]]].
      destruct (proj1 (hits_all_in_range _ M) Hall i j w Hc He). lia.
    + intros _. eexists. split; [reflexivity|].
      unfold nodes, node_names. cbn [body]. apply nodes_of_body.
    + discriminate.
  - split; split.
    + intros _. destruct (forallb_false_In _ _ Hall) as [[i [j w]] [Hin Hr]].
      apply In_hits in Hin. destruct Hin as [Hc He].
      exists i, j, w. split; [exact Hc|]. split; [exact He|].
      unfold in_range in Hr. cbn [fst snd] in Hr.
      apply andb_false_iff in Hr. rewrite !Nat.ltb_ge in Hr. exact Hr.
    + reflexivity.
    + intros H. contradiction H. reflexivity.
    + intros [d [Hd _]]. discriminate.
Qed.

(** C2 as stated fails: two labels for a 1 x 1 matrix, a 1 x 2 matrix,
    and one label for a 2 x 2 matrix are all accepted without error. *)
Lemma make_graph_no_dimension_check :
  make_graph str_fixture [[0]]%float (Some ["A"; "B"])
  = Ok {| engine := "dot"; body := [node_stmt "A"; node_stmt "B"] |}
  /\ squareb 1 [[0; 0]]%float = false
  /\ make_graph str_fixture [[0; 0]]%float None
     = Ok {| engine := "dot"; body := [node_stmt "x0"] |}
  /\ make_graph str_fixture [[0; 0]; [0; 0]]%float (Some ["A"])
     = Ok {| engine := "dot"; body := [node_stmt "A"] |}.
Proof. repeat split; reflexivity. Qed.

(* ================================================================= *)
(** ** Strings: trimming and replacing *)

Lemma string_app_nil_r (s : string) : (s ++ "")%string = s.
Proof. induction s as [|c s IH]; cbn; congruence. Qed.

Lemma string_app_assoc (a b c : string) :
  ((a ++ b) ++ c)%string = (a ++ (b ++ c))%string.
Proof. induction a as [|x a IH]; cbn; congruence. Qed.

Lemma string_length_app (a b : string) :
  String.length (a ++ b) = String.length a + String.length b.
Proof. induction a as [|x a IH]; cbn; congruence. Qed.

Lemma all_space_append (a b : string) :
  all_space (a ++ b) = all_space a && all_space b.
Proof.
  induction a as [|x a IH]; cbn; [reflexivity|].
  rewrite IH, andb_assoc. reflexivity.
Qed.

Lemma lstrip_empty_iff (s : string) : lstrip s = "" <-> all_space s = true.
Proof.
  induction s as [|c s IH]; cbn; [tauto|].
  destruct (isspace c); cbn; [exact IH|]. split; discriminate.
Qed.

Lemma lstrip_first (s : string) (c : ascii) :
  first_char (lstrip s) = Some c -> isspace c = false.
Proof.
  induction s as [|x s IH]; cbn; [discriminate|].
  destruct (isspace x) eqn:Hx; [exact IH|].
  cbn. intros H. inversion H; subst. exact Hx.
Qed.

Lemma lstrip_split (s : string) :
  exists a, s = (a ++ lstrip s)%string /\ all_space a = true.
Proof.
  induction s as [|c s [a [Hs Ha]]]; [exists ""; auto|].
  cbn. destruct (isspace c) eqn:Hc.
  - exists (String c a). cbn. rewrite Hc, Ha, <- Hs. auto.
  - exists "". auto.
Qed.

Lemma rstrip_empty_iff (s : string) : rstrip s = "" <-> all_space s = true.
Proof.
  induction s as [|c s IH]; cbn; [tauto|].
  destruct (rstrip s) eqn:Hr.
  - destruct (isspace c); cbn; [tauto|]. split; discriminate.
  - destruct (all_space s).
    + destruct IH as [_ IH]. discriminate (IH eq_refl).
    + rewrite andb_false_r. split; discriminate.
Qed.

Lemma rstrip_first (s : string) (c : ascii) :
  first_char s = Some c -> isspace c = false -> first_char (rstrip s) = Some c.
Proof.
  destruct s as [|x s]; cbn; [discriminate|].
  intros H Hc. inversion H; subst.
  destruct (rstrip s); [rewrite Hc|]; reflexivity.
Qed.

Lemma rstrip_last (s : string) (c : ascii) :
  last_char (rstrip s) = Some c -> isspace c = false.
Proof.
  induction s as [|x s IH]; cbn; [discriminate|].
  destruct (rstrip s) as [|y r] eqn:Hr.
  - destruct (isspace x) eqn:Hx; cbn; [discriminate|].
    intros H. inversion H; subst. exact Hx.
  - cbn [last_char]. exact IH.
Qed.

Lemma rstrip_split (s : string) :
  exists b, s = (rstrip s ++ b)%string /\ all_space b = true.
Proof.
  induction s as [|c s [b [Hs Hb]]]; [exists ""; auto|].
  cbn. destruct (rstrip s) as [|y r] eqn:Hr.
  - destruct (isspace c) eqn:Hc.
    + exists (String c s). split; [reflexivity|]. cbn. rewrite Hc. cbn.
      apply rstrip_empty_iff. exact Hr.
    + exists b. cbn. split; [|exact Hb]. f_equal. exact Hs.
  - exists b. cbn. split; [|exact Hb]. f_equal. exact Hs.
Qed.

(** [strip] removes a whitespace prefix and a whitespace suffix, and
    what is left neither starts nor ends with whitespace. *)
Lemma strip_split (s : string) :
  exists a b, s = (a ++ strip s ++ b)%string
    /\ all_space a = true /\ all_space b = true.
Proof.
  destruct (lstrip_split s) as [a [Hs Ha]].
  destruct (rstrip_split (lstrip s)) as [b [Hl Hb]].
  exists a, b. unfold strip. rewrite <- Hl. auto.
Qed.

Lemma strip_first (s : string) (c : ascii) :
  first_char (strip s) = Some c -> isspace c = false.
Proof.
  unfold strip. intros H.
  destruct (lstrip s) as [|x t] eqn:Hl; [discriminate|].
  assert (Hx : isspace x = false) by (apply (lstrip_first s); rewrite Hl; reflexivity).
  rewrite (@rstrip_first (String x t) x eq_refl Hx) in H.
  inversion H; subst. exact Hx.
Qed.

Lemma strip_last (s : string) (c : ascii) :
  last_char (strip s) = Some c -> isspace c = false.
Proof. apply rstrip_last. Qed.

Lemma strip_empty_iff (s : string) : strip s = "" <-> all_space s = true.
Proof.
  unfold strip. rewrite rstrip_empty_iff. split.
  - intros H. apply lstrip_empty_iff.
    destruct (lstrip s) as [|x t] eqn:Hl; [reflexivity|].
    assert (Hx : isspace x = false)
      by (apply (lstrip_first s); rewrite Hl; reflexivity).
    cbn in H. rewrite Hx in H. discriminate.
  - intros H. apply lstrip_empty_iff in H. rewrite H. reflexivity.
Qed.

(** The two replacements, read on the list of characters. *)
Lemma replace_char_map (old new : ascii) (s : string) :
  list_ascii_of_string (replace old (String new "") s)
  = map (fun c => if Ascii.eqb c old then new else c) (list_ascii_of_string s).
Proof.
  induction s as [|c s IH]; [reflexivity|].
  cbn. destruct (Ascii.eqb c old); cbn; rewrite IH; reflexivity.
Qed.

Lemma replace_empty_filter (old : ascii) (s : string) :
  list_ascii_of_string (replace old "" s)
  = filter (fun c => negb (Ascii.eqb c old)) (list_ascii_of_string s).
Proof.
  induction s as [|c s IH]; [reflexivity|].
  cbn. destruct (Ascii.eqb c old); cbn; rewrite IH; reflexivity.
Qed.

Lemma replace_append (old : ascii) (new a b : string) :
  replace old new (a ++ b)
  = (replace old new a ++ replace old new b)%string.
Proof.
  induction a as [|c a IH]; [reflexivity|].
  cbn. destruct (Ascii.eqb c old); rewrite IH; [|reflexivity].
  rewrite string_app_assoc. reflexivity.
Qed.

Lemma normalized_empty_iff (s : string) :
  normalized s = "" <-> all_space s = true.
Proof.
  rewrite <- strip_empty_iff. unfold normalized. split.
  - intros H. destruct (strip s) as [|c t] eqn:Hs; [reflexivity|].
    assert (Hc : isspace c = false)
      by (apply (strip_first s); rewrite Hs; reflexivity).
    cbn [replace] in H.
    destruct (Ascii.eqb_spec c LF) as [->|Hlf]; [discriminate Hc|].
    cbn [replace] in H.
    destruct (Ascii.eqb_spec c TAB) as [->|Htab]; [discriminate Hc|].
    discriminate H.
  - intros ->. reflexivity.
Qed.

(* ================================================================= *)
(** ** Strings: indexing and slicing *)

Lemma get_last (s : string) :
  s <> "" -> String.get (String.length s - 1) s = last_char s.
Proof.
  induction s as [|c s IH]; [congruence|]. intros _.
  destruct s as [|c' s']; [reflexivity|].
  change (last_char (String c (String c' s')))
    with (last_char (String c' s')).
  rewrite <- IH by discriminate.
  cbn [String.length]. rewrite !Nat.sub_succ, !Nat.sub_0_r. reflexivity.
Qed.

Lemma last_char_None (s : string) : last_char s = None <-> s = "".
Proof.
  induction s as [|c s IH]; [tauto|]. split; [|discriminate].
  destruct s as [|c' s']; [discriminate|].
  cbn [last_char]. intros H. apply IH in H. discriminate.
Qed.

Lemma last_char_append (a : string) (c : ascii) :
  last_char (a ++ String c "") = Some c.
Proof.
  induction a as [|x a IH]; [reflexivity|].
  cbn [String.append last_char]. rewrite IH.
  destruct (a ++ String c "")%string eqn:E; [|reflexivity].
  destruct a; discriminate.
Qed.

(** [s[-1]] is the last character, and raises on the empty string. *)
Lemma str_getitem_last (s : string) :
  str_getitem s (-1)
  = match last_char s with
    | Some c => Ok (String c "")
    | None => Raise IndexError
    end.
Proof.
  destruct s as [|c s]; [reflexivity|].
  unfold str_getitem. set (t := String c s).
  assert (Hlen : String.length t = S (String.length s)) by reflexivity.
  assert (Hneg : (-1 <? 0)%Z = true) by reflexivity. rewrite Hneg.
  assert (Hk : (Z.of_nat (String.length t) + -1)%Z
               = Z.of_nat (String.length t - 1)) by lia.
  rewrite Hk, Nat2Z.id.
  destruct (Z.ltb_spec (Z.of_nat (String.length t - 1)) 0); [lia|].
  destruct (Z.leb_spec (Z.of_nat (String.length t))
                       (Z.of_nat (String.length t - 1))); [lia|].
  cbn [orb]. rewrite get_last by discriminate.
  destruct (last_char t) eqn:E; [reflexivity|].
  apply last_char_None in E. discriminate.
Qed.

Lemma substring_skip (n m : nat) (c : ascii) (s : string) :
  substring (S n) m (String c s) = substring n m s.
Proof. destruct m; reflexivity. Qed.

Lemma substring_none (s : string) : forall n, substring n 0 s = "".
Proof.
  induction s as [|c s IH]; intros [|n]; try reflexivity.
  rewrite substring_skip. apply IH.
Qed.

Lemma substring_0_min (s : string) : forall k,
  substring 0 (Nat.min (String.length s) k) s = substring 0 k s.
Proof.
  induction s as [|c s IH]; intros [|k]; try reflexivity.
  cbn [String.length Nat.min substring]. rewrite IH. reflexivity.
Qed.

Lemma substring_prefix (a b : string) :
  substring 0 (String.length a) (a ++ b) = a.
Proof.
  induction a as [|c a IH]; cbn [String.length String.append substring].
  - destruct b; reflexivity.
  - rewrite IH. reflexivity.
Qed.

Lemma length_substring (s : string) : forall n m,
  n + m <= String.length s -> String.length (substring n m s) = m.
Proof.
  induction s as [|c s IH]; intros n m H; cbn in H.
  - assert (n = 0) by lia. assert (m = 0) by lia. subst. reflexivity.
  - destruct n as [|n].
    + destruct m as [|m]; [reflexivity|]. cbn. rewrite IH; [reflexivity | lia].
    + rewrite substring_skip. apply IH. lia.
Qed.

(** The two slices of [str_to_dot], without negative bounds. *)
Lemma slice_head (s : string) :
  slice s None (Some 9%Z) = substring 0 9 s.
Proof.
  unfold slice, clip. assert (H : (9 <? 0)%Z = false) by reflexivity.
  rewrite H, Nat.sub_0_r. apply substring_0_min.
Qed.

Lemma slice_middle (s : string) :
  slice s (Some 10%Z) (Some (-2)%Z)
  = substring 10 (String.length s - 12) s.
Proof.
  unfold slice, clip.
  assert (H1 : (10 <? 0)%Z = false) by reflexivity.
  assert (H2 : (-2 <? 0)%Z = true) by reflexivity.
  rewrite H1, H2.
  replace (Z.to_nat (Z.max 0 (Z.of_nat (String.length s) + -2)))
    with (String.length s - 2) by lia.
  change (Z.to_nat 10) with 10.
  destruct (Nat.le_gt_cases 12 (String.length s)) as [Hlen|Hlen].
  - rewrite Nat.min_r by lia. f_equal. lia.
  - replace (String.length s - 2 - Nat.min (String.length s) 10) with 0 by lia.
    replace (String.length s - 12) with 0 by lia.
    rewrite !substring_none. reflexivity.
Qed.

(** [str_to_dot] in one equation over the normalized text. *)
Lemma str_to_dot_eq (s : string) :
  str_to_dot s
  = match last_char (normalized s) with
    | Some c =>
        Ok (substring 0 9 (normalized s)
            ++ substring 10 (String.length (normalized s) - 12) (normalized s)
            ++ String c "")%string
    | None => Raise IndexError
    end.
Proof.
  unfold str_to_dot. fold (normalized s).
  rewrite str_getitem_last, slice_head, slice_middle.
  destruct (last_char (normalized s)); reflexivity.
Qed.

Lemma str_to_dot_raises_iff (s : string) :
  str_to_dot s = Raise IndexError <-> all_space s = true.
Proof.
  rewrite str_to_dot_eq, <- normalized_empty_iff, <- last_char_None.
  destruct (last_char (normalized s)); split; intros H;
    try reflexivity; discriminate.
Qed.

(** Deleting the second-to-last character keeps everything before it
    and the last character. *)
Lemma delete_second_last (r : string) (c : ascii) :
  2 <= String.length r -> last_char r = Some c ->
  delete_at (String.length r - 2) r
  = (substring 0 (String.length r - 2) r ++ String c "")%string.
Proof.
  induction r as [|x r IH]; cbn [String.length]; [lia|].
  intros Hlen Hlast. destruct r as [|y r]; [cbn in Hlen; lia|].
  destruct r as [|z r].
  - cbn in Hlast |- *. congruence.
  - change (last_char (String x (String y (String z r))))
      with (last_char (String y (String z r))) in Hlast.
    assert (H2 : 2 <= String.length (String y (String z r)))
      by (cbn; lia).
    specialize (IH H2 Hlast).
    replace (S (String.length (String y (String z r))) - 2)
      with (S (String.length (String y (String z r)) - 2))
      by (cbn [String.length]; lia).
    cbn [delete_at substring String.append]. rewrite IH. reflexivity.
Qed.

Lemma last_char_cons (x y : ascii) (r : string) :
  last_char (String x (String y r)) = last_char (String y r).
Proof. reflexivity. Qed.

(** On a normalized text of twelve characters or more, [str_to_dot]
    deletes the character at index 9 and the second-to-last one. *)
Lemma str_to_dot_deletes (s : string) :
  12 <= String.length (normalized s) ->
  str_to_dot s
  = Ok (delete_at 9 (delete_at (String.length (normalized s) - 2)
                               (normalized s))).
Proof.
  rewrite str_to_dot_eq. generalize (normalized s) as g. intros g Hlen.
  do 10 (destruct g as [|? g]; [cbn in Hlen; lia|]).
  assert (Hr : 2 <= String.length g) by (cbn in Hlen; lia).
  rewrite !last_char_cons.
  destruct g as [|y g]; [cbn in Hr; lia|].
  rewrite !last_char_cons.
  destruct (last_char (String y g)) as [c|] eqn:Hlast;
    [|apply last_char_None in Hlast; discriminate].
  pose proof (delete_second_last (String y g) Hr Hlast) as Hdel.
  set (r := String y g) in *.
  replace (String.length
             (String a (String a0 (String a1 (String a2 (String a3
               (String a4 (String a5 (String a6 (String a7 (String a8 r))))))))))
           - 2)
    with (10 + (String.length r - 2)) by (cbn [String.length]; lia).
  replace (String.length
             (String a (String a0 (String a1 (String a2 (String a3
               (String a4 (String a5 (String a6 (String a7 (String a8 r))))))))))
           - 12)
    with (String.length r - 2) by (cbn [String.length]; lia).
  rewrite !substring_skip.
  cbn [Nat.add delete_at]. rewrite Hdel.
  destruct (String.length r - 2) eqn:E; reflexivity.
Qed.

(* ================================================================= *)
(** ** [str_to_dot] on a rendered graph *)

Lemma rstrip_keeps (x w : string) (c : ascii) :
  isspace c = false -> all_space w = true ->
  rstrip (x ++ String c w) = (x ++ String c "")%string.
Proof.
  intros Hc Hw. induction x as [|a x IH]; cbn [String.append rstrip].
  - apply rstrip_empty_iff in Hw. rewrite Hw, Hc. reflexivity.
  - rewrite IH. destruct (x ++ String c "")%string eqn:E; [|reflexivity].
    destruct x; discriminate.
Qed.

Lemma replace_cat (old : ascii) (new : string) (l : list string) :
  replace old new (cat l) = cat (map (replace old new) l).
Proof.
  induction l as [|x l IH]; [reflexivity|].
  cbn [cat fold_right map]. fold (cat l). fold (cat (map (replace old new) l)).
  rewrite replace_append, IH. reflexivity.
Qed.

Lemma norm_text_append (a b : string) :
  norm_text (a ++ b) = (norm_text a ++ norm_text b)%string.
Proof. unfold norm_text. rewrite !replace_append. reflexivity. Qed.

Lemma norm_text_cat (l : list string) :
  norm_text (cat l) = cat (map norm_text l).
Proof.
  unfold norm_text. rewrite !replace_cat, map_map. reflexivity.
Qed.

Lemma cat_join (texts : list string) :
  texts <> [] ->
  cat (map (fun t => t ++ ";")%string texts) = (join ";" texts ++ ";")%string.
Proof.
  induction texts as [|t texts IH]; [congruence|]. intros _.
  destruct texts as [|t' texts].
  - cbn. rewrite string_app_nil_r. reflexivity.
  - cbn [map cat fold_right join] in IH |- *.
    rewrite IH by discriminate.
    rewrite !string_app_assoc. reflexivity.
Qed.

Section SourceFacts.
Variable quote_name quote_value : string -> string.


Lemma strip_source (d : Digraph) :
  strip (source quote_name quote_value d)
  = ("digraph {" ++ String LF (cat (map (body_line quote_name quote_value) (body d)) ++ "}"))%string.
Proof.
  unfold strip, source.
  set (B := cat (map (body_line quote_name quote_value) (body d))).
  change (lstrip ("digraph {" ++ String LF (B ++ "}" ++ String LF "")))
    with ("digraph {" ++ String LF (B ++ "}" ++ String LF ""))%string.
  replace ("digraph {" ++ String LF (B ++ "}" ++ String LF ""))%string
    with (("digraph {" ++ String LF B) ++ String "}" (String LF ""))%string
    by (cbn; rewrite ?string_app_assoc; reflexivity).
  rewrite rstrip_keeps by reflexivity.
  cbn. reflexivity.
Qed.

Lemma norm_body_line (st : stmt) :
  norm_text (body_line quote_name quote_value st) = (norm_stmt quote_name quote_value st ++ ";")%string.
Proof.
  unfold body_line, norm_stmt.
  change (String TAB (stmt_text quote_name quote_value st ++ String LF ""))
    with (String TAB "" ++ (stmt_text quote_name quote_value st ++ String LF ""))%string.
  rewrite !norm_text_append. reflexivity.
Qed.

Lemma normalized_source (d : Digraph) :
  normalized (source quote_name quote_value d)
  = ("digraph {;" ++ cat (map (fun st => norm_stmt quote_name quote_value st ++ ";") (body d)) ++ "}")%string.
Proof.
  unfold normalized. rewrite strip_source. fold (norm_text).
  change (replace TAB "" (replace LF ";" ?x)) with (norm_text x).
  change ("digraph {" ++ String LF (cat (map (body_line quote_name quote_value) (body d)) ++ "}"))%string
    with (("digraph {" ++ String LF "") ++ (cat (map (body_line quote_name quote_value) (body d)) ++ "}"))%string.
  rewrite !norm_text_append, norm_text_cat, map_map.
  rewrite (map_ext _ _ norm_body_line). reflexivity.
Qed.

(** The statements of the graph, normalized and separated by
    semicolons, inside [digraph {] and [}]. *)
Lemma str_to_dot_source (d : Digraph) :
  str_to_dot (source quote_name quote_value d)
  = Ok ("digraph {" ++ join ";" (map (norm_stmt quote_name quote_value) (body d)) ++ "}")%string.
Proof.
  rewrite str_to_dot_eq, normalized_source.
  set (X := cat (map (fun st => (norm_stmt quote_name quote_value st ++ ";")%string) (body d))).
  assert (Hlast : last_char ("digraph {;" ++ X ++ "}") = Some "}"%char).
  { replace ("digraph {;" ++ X ++ "}")%string
      with (("digraph {;" ++ X) ++ String "}" "")%string
      by (rewrite string_app_assoc; reflexivity).
    apply last_char_append. }
  rewrite Hlast.
  assert (Hlen : String.length ("digraph {;" ++ X ++ "}") - 12
                 = String.length X - 1).
  { rewrite !string_length_app. cbn [String.length]. lia. }
  rewrite Hlen.
  change ("digraph {;" ++ X ++ "}")%string
    with (String "d" (String "i" (String "g" (String "r" (String "a"
           (String "p" (String "h" (String " " (String "{" (String ";"
             (X ++ "}")))))))))))%string.
  rewrite !substring_skip.
  change (substring 0 9 ?s) with "digraph {" at 1.
  f_equal. cbn [String.append]. do 9 f_equal.
  destruct (body d) as [|st body] eqn:Hb.
  - reflexivity.
  - subst X. rewrite <- (map_map (norm_stmt quote_name quote_value) (fun t => (t ++ ";")%string)).
    rewrite cat_join by discriminate.
    set (J := join ";" (map (norm_stmt quote_name quote_value) (st :: body))).
    rewrite string_length_app. cbn [String.length].
    replace (String.length J + 1 - 1) with (String.length J) by lia.
    rewrite string_app_assoc, substring_prefix. reflexivity.
Qed.

End SourceFacts.

(* ================================================================= *)
(** ** [str_to_dot]: failures and steps *)

Lemma serialize_spec_eq (s : string) :
  serialize_spec s
  = match last_char (normalized s) with
    | Some c =>
        Ok (substring 10 (String.length (normalized s) - 12) (normalized s)
            ++ String c "")%string
    | None => Raise IndexError
    end.
Proof.
  unfold serialize_spec. rewrite str_getitem_last.
  destruct (last_char (normalized s)); reflexivity.
Qed.

(** C3, as the code has it. [str_to_dot] has no length check: the
    slices never fail and only [graph[-1]] can, so the call raises (an
    [IndexError]) exactly when the input consists of whitespace only
    (the empty input included), and returns on every other input,
    however short. *)
Theorem str_to_dot_fails_iff (s : string) :
  (str_to_dot s = Raise IndexError <-> all_space s = true)
  /\ (all_space s = false <-> exists t, str_to_dot s = Ok t).
Proof.
  split; [apply str_to_dot_raises_iff|].
  pose proof (str_to_dot_raises_iff s) as H.
  destruct (str_to_dot s) as [t|[]] eqn:E.
  - split; [eauto|]. intros _.
    destruct (all_space s); [|reflexivity].
    destruct H as [_ H]. discriminate (H eq_refl).
  - destruct H as [H _]. rewrite (H eq_refl).
    split; [discriminate|]. intros [t Ht]. discriminate.
Qed.

(** C3 as stated fails in both directions: inputs far shorter than the
    twelve characters that the slices skip over are accepted, and a long
    input of blanks is rejected. *)
Lemma str_to_dot_short_and_blank :
  str_to_dot "a" = Ok "aa"
  /\ str_to_dot "digraph {}" = Ok "digraph {}"
  /\ (String.length "digraph {}" <? 12)%nat = true
  /\ str_to_dot "                    " = Raise IndexError
  /\ (String.length "                    " <? 12)%nat = false.
Proof. repeat split; reflexivity. Qed.

(** C6, as the code has it. [str_to_dot] trims whitespace at both ends,
    then turns every line feed into a semicolon, then removes every tab;
    it raises if nothing is left, and otherwise returns the first nine
    characters, the characters from index 10 up to the last two, and the
    last character. On a text of twelve characters or more this deletes
    exactly the character at index 9 and the second-to-last one; the
    first nine characters stay, so the result is the nine-character
    header followed by what the specification's step 4 leaves. On the
    rendered text of a graph the result is [digraph {], the statements
    separated by semicolons, and [}]. *)
Theorem str_to_dot_steps (s : string) :
  (exists a b, s = (a ++ strip s ++ b)%string
     /\ all_space a = true /\ all_space b = true
     /\ (forall c, first_char (strip s) = Some c -> isspace c = false)
     /\ (forall c, last_char (strip s) = Some c -> isspace c = false))
  /\ list_ascii_of_string (replace LF ";" (strip s))
     = map (fun c => if Ascii.eqb c LF then ";"%char else c)
           (list_ascii_of_string (strip s))
  /\ list_ascii_of_string (normalized s)
     = filter (fun c => negb (Ascii.eqb c TAB))
              (list_ascii_of_string (replace LF ";" (strip s)))
  /\ str_to_dot s
     = match last_char (normalized s) with
       | Some c =>
           Ok (substring 0 9 (normalized s)
               ++ substring 10 (String.length (normalized s) - 12) (normalized s)
               ++ String c "")%string
       | None => Raise IndexError
       end
  /\ (12 <= String.length (normalized s) ->
      str_to_dot s
      = Ok (delete_at 9 (delete_at (String.length (normalized s) - 2)
                                   (normalized s))))
  /\ (forall r, serialize_spec s = Ok r ->
      str_to_dot s = Ok (substring 0 9 (normalized s) ++ r)%string)
  /\ (forall quote_name quote_value d,
      str_to_dot (source quote_name quote_value d)
      = Ok ("digraph {"
            ++ join ";" (map (norm_stmt quote_name quote_value) (body d))
            ++ "}")%string).
Proof.
  repeat apply conj.
  - destruct (strip_split s) as [a [b [Hs [Ha Hb]]]].
    exists a, b. repeat split; auto.
    + apply strip_first.
    + apply strip_last.
  - apply replace_char_map.
  - apply replace_empty_filter.
  - apply str_to_dot_eq.
  - apply str_to_dot_deletes.
  - intros r Hr. rewrite serialize_spec_eq in Hr. rewrite str_to_dot_eq.
    destruct (last_char (normalized s)); [|discriminate].
    inversion Hr; subst. reflexivity.
  - intros. apply str_to_dot_source.
Qed.

(** C6 as stated fails: on the rendered text of the graph with the one
    node A the header [digraph {] is still there, where the
    specification's step 4 leaves the statement list and the closing
    brace only. *)
Lemma str_to_dot_keeps_header :
  str_to_dot ("digraph {" ++ String LF (String TAB ("A" ++ String LF "}")))
  = Ok "digraph {A}"
  /\ serialize_spec ("digraph {" ++ String LF (String TAB ("A" ++ String LF "}")))
     = Ok "A}"
  /\ source (fun n => n) (fun v => v) {| engine := "dot"; body := [node_stmt "A"] |}
     = ("digraph {" ++ String LF (String TAB ("A" ++ String LF ("}" ++ String LF ""))))%string.
Proof. repeat split; reflexivity. Qed.

(* ================================================================= *)
(** ** The empty matrix *)

(** C8. For the 0 x 0 matrix (with labels absent or empty)
    [make_graph] returns a graph without nodes and without edges; its
    rendered text is the empty [digraph] block, and [str_to_dot] turns
    that into [digraph {}], a block without statements. *)
Theorem make_graph_empty_matrix (str : float -> string)
    (quote_name quote_value : string -> string)
    (M : Np.ndarray float) (labels : option (list string)) :
  square 0 M -> valid_labels 0 labels ->
  exists d, make_graph str M labels = Ok d
    /\ nodes d = [] /\ edges d = [] /\ body d = []
    /\ source quote_name quote_value d
       = ("digraph {" ++ String LF ("}" ++ String LF ""))%string
    /\ str_to_dot (source quote_name quote_value d) = Ok "digraph {}".
Proof.
  intros [HM _] Hv. destruct M; [|discriminate].
  assert (Hg : make_graph str [] labels = Ok {| engine := "dot"; body := [] |}).
  { destruct labels as [[|l L]|]; [reflexivity | discriminate | reflexivity]. }
  eexists. split; [exact Hg|]. repeat split.
Qed.

(** C8 with an empty list of labels. *)
Lemma make_graph_empty_matrix_witness :
  square 0 (@nil (list float)) /\ valid_labels 0 (Some [])
  /\ exists d, make_graph str_fixture [] (Some []) = Ok d
       /\ nodes d = [] /\ edges d = []
       /\ str_to_dot (source (fun n => n) dquote d) = Ok "digraph {}".
Proof.
  assert (Hsq : square 0 (@nil (list float))) by (split; [reflexivity | constructor]).
  split; [exact Hsq|]. split; [reflexivity|].
  destruct (@make_graph_empty_matrix str_fixture (fun n => n) dquote [] (Some [])
              Hsq eq_refl) as [d [Hd [Hn [He [_ [_ Hs]]]]]].
  exists d. auto.
Defined.

(* ================================================================= *)
(** ** The store: what a call reads, allocates and updates *)

Module StoreFacts.
Import Store StoreOps.

Lemma bind_ok {A B} (m : M A) (k : A -> M B) (h h' : heap) (a : A) :
  m h = Some (Ok a, h') -> bind m k h = k a h'.
Proof. intros H. unfold bind. rewrite H. reflexivity. Qed.

Lemma bind_raise {A B} (m : M A) (k : A -> M B) (h h' : heap) (e : exn) :
  m h = Some (Raise e, h') -> bind m k h = Some (Raise e, h').
Proof. intros H. unfold bind. rewrite H. reflexivity. Qed.

Lemma nth_error_new (h l : heap) (k : nat) :
  nth_error (h ++ l) (List.length h + k) = nth_error l k.
Proof.
  rewrite nth_error_app2 by lia. f_equal. lia.
Qed.

Lemma nth_error_old (h l : heap) (r : ref) (o : object) :
  nth_error h r = Some o -> nth_error (h ++ l) r = Some o.
Proof.
  intros H. rewrite nth_error_app1; [exact H|].
  apply nth_error_Some. congruence.
Qed.

Lemma set_nth_length (h : heap) : forall r o,
  List.length (set_nth h r o) = List.length h.
Proof.
  induction h as [|x h IH]; intros [|r] o; cbn; auto.
Qed.

Lemma set_nth_same (h : heap) : forall r o,
  nth_error h r = Some o -> set_nth h r o = h.
Proof.
  induction h as [|x h IH]; intros [|r] o H; cbn in *; try discriminate.
  - congruence.
  - rewrite IH; auto.
Qed.

Lemma set_nth_twice (h : heap) : forall r o o',
  set_nth (set_nth h r o) r o' = set_nth h r o'.
Proof.
  induction h as [|x h IH]; intros [|r] o o'; cbn; auto.
  rewrite IH. reflexivity.
Qed.

Lemma nth_error_set_nth_eq (h : heap) : forall r o,
  r < List.length h -> nth_error (set_nth h r o) r = Some o.
Proof.
  induction h as [|x h IH]; intros [|r] o H; cbn in *; try lia; auto.
  apply IH. lia.
Qed.

Lemma nth_error_set_nth_neq (h : heap) : forall r r' o,
  r <> r' -> nth_error (set_nth h r o) r' = nth_error h r'.
Proof.
  induction h as [|x h IH]; intros [|r] [|r'] o H; cbn; auto; try lia.
Qed.

Lemma set_nth_new (h l : heap) (k : nat) (o : object) :
  set_nth (h ++ l) (List.length h + k) o = h ++ set_nth l k o.
Proof.
  induction h as [|x h IH]; cbn; [reflexivity|]. rewrite IH. reflexivity.
Qed.

Lemma load_run (h : heap) (r : ref) (o : object) :
  nth_error h r = Some o -> load r h = Some (Ok o, h).
Proof. intros H. unfold load. rewrite H. reflexivity. Qed.

Ltac step_with lem := erewrite bind_ok; [| solve [eapply lem; eassumption]].

Lemma load_floats2_run (h : heap) (r : ref) (a : Np.ndarray float) :
  nth_error h r = Some (Floats2 a) -> load_floats2 r h = Some (Ok a, h).
Proof. intros H. unfold load_floats2. step_with load_run. reflexivity. Qed.

Lemma load_bools2_run (h : heap) (r : ref) (m : Np.ndarray bool) :
  nth_error h r = Some (Bools2 m) -> load_bools2 r h = Some (Ok m, h).
Proof. intros H. unfold load_bools2. step_with load_run. reflexivity. Qed.

Lemma load_ints1_run (h : heap) (r : ref) (v : list nat) :
  nth_error h r = Some (Ints1 v) -> load_ints1 r h = Some (Ok v, h).
Proof. intros H. unfold load_ints1. step_with load_run. reflexivity. Qed.

Lemma load_floats1_run (h : heap) (r : ref) (v : list float) :
  nth_error h r = Some (Floats1 v) -> load_floats1 r h = Some (Ok v, h).
Proof. intros H. unfold load_floats1. step_with load_run. reflexivity. Qed.

Lemma load_list_run (h : heap) (r : ref) (l : list string) :
  nth_error h r = Some (StrList l) -> load_list r h = Some (Ok l, h).
Proof. intros H. unfold load_list. step_with load_run. reflexivity. Qed.

Lemma load_graph_run (h : heap) (r : ref) (d : Digraph) :
  nth_error h r = Some (Graph d) -> load_graph r h = Some (Ok d, h).
Proof. intros H. unfold load_graph. step_with load_run. reflexivity. Qed.

Lemma store_run (h : heap) (r : ref) (o o' : object) :
  nth_error h r = Some o' -> store r o h = Some (Ok tt, set_nth h r o).
Proof.
  intros H. unfold store.
  assert (Hlt : r < List.length h) by (apply nth_error_Some; congruence).
  apply Nat.ltb_lt in Hlt. rewrite Hlt. reflexivity.
Qed.

Lemma digraph_node_run (h : heap) (d : ref) (g : Digraph) (name : string) :
  nth_error h d = Some (Graph g) ->
  digraph_node d name h = Some (Ok tt, set_nth h d (Graph (node g name))).
Proof.
  intros H. unfold digraph_node. step_with load_graph_run.
  eapply store_run. exact H.
Qed.

Lemma digraph_edge_run (h : heap) (d : ref) (g : Digraph) (t hd l : string) :
  nth_error h d = Some (Graph g) ->
  digraph_edge d t hd l h = Some (Ok tt, set_nth h d (Graph (edge g t hd l))).
Proof.
  intros H. unfold digraph_edge. step_with load_graph_run.
  eapply store_run. exact H.
Qed.

Lemma list_getitem_ok (h : heap) (r : ref) (l : list string) (i : nat) (s : string) :
  nth_error h r = Some (StrList l) -> nth_error l i = Some s ->
  list_getitem r i h = Some (Ok s, h).
Proof.
  intros H Hi. unfold list_getitem. step_with load_list_run.
  rewrite Hi. reflexivity.
Qed.

Lemma list_getitem_raise (h : heap) (r : ref) (l : list string) (i : nat) :
  nth_error h r = Some (StrList l) -> nth_error l i = None ->
  list_getitem r i h = Some (Raise IndexError, h).
Proof.
  intros H Hi. unfold list_getitem. step_with load_list_run.
  rewrite Hi. reflexivity.
Qed.

(** The node loop updates the graph object, and nothing else. *)
Lemma node_loop_run (names : list string) :
  forall (h : heap) (d : ref) (g : Digraph),
  nth_error h d = Some (Graph g) ->
  for_each (digraph_node d) names h
  = Some (Ok tt, set_nth h d (Graph (add_nodes g names))).
Proof.
  induction names as [|n names IH]; intros h d g H.
  - cbn. unfold ret. rewrite (set_nth_same _ _ H). reflexivity.
  - cbn [for_each]. step_with digraph_node_run.
    assert (Hd : d < List.length h) by (apply nth_error_Some; congruence).
    rewrite (IH _ d (node g n) (nth_error_set_nth_eq _ _ Hd)).
    rewrite set_nth_twice. reflexivity.
Qed.

Section EdgeLoop.
Variable str : float -> string.

(** The edge loop updates the graph object, and nothing else, also
    when a lookup raises half-way. *)
Lemma edge_loop_run (L : list string) (hs : list (nat * (nat * float))) :
  forall (h : heap) (names d : ref) (g : Digraph),
  nth_error h d = Some (Graph g) ->
  nth_error h names = Some (StrList L) ->
  exists g',
    for_each (edge_step str names d) hs h
    = Some (match add_edges str L g hs with
            | Ok _ => Ok tt
            | Raise e => Raise e
            end, set_nth h d (Graph g'))
    /\ (forall gf, add_edges str L g hs = Ok gf -> g' = gf).
Proof.
  induction hs as [|[to [from_ coef]] hs IH]; intros h names d g Hd Hn.
  - exists g. cbn. unfold ret. rewrite (set_nth_same _ _ Hd).
    split; [reflexivity|]. intros gf Hgf. congruence.
  - assert (Hne : d <> names) by (intros ->; rewrite Hd in Hn; discriminate).
    assert (Hlt : d < List.length h) by (apply nth_error_Some; congruence).
    cbn [for_each add_edges]. unfold edge_step at 1, getitem. cbn [fst snd].
    destruct (nth_error L from_) as [tn|] eqn:Ef.
    + destruct (nth_error L to) as [hn|] eqn:Et.
      * cbn [Py.bind].
        destruct (IH (set_nth h d (Graph (edge g tn hn (str coef)))) names d
                     (edge g tn hn (str coef))) as [g' [Hrun Hfin]].
        -- apply nth_error_set_nth_eq. exact Hlt.
        -- rewrite nth_error_set_nth_neq by exact Hne. exact Hn.
        -- exists g'. split; [|exact Hfin].
           erewrite bind_ok.
           ++ rewrite Hrun, set_nth_twice. reflexivity.
           ++ erewrite bind_ok; [|eapply list_getitem_ok; eassumption].
              erewrite bind_ok; [|eapply list_getitem_ok; eassumption].
              eapply digraph_edge_run. exact Hd.
      * exists g. cbn [Py.bind]. split; [|discriminate].
        erewrite bind_raise.
        -- rewrite (set_nth_same _ _ Hd). reflexivity.
        -- erewrite bind_ok; [|eapply list_getitem_ok; eassumption].
           erewrite bind_raise; [reflexivity|].
           eapply list_getitem_raise; eassumption.
    + exists g. cbn [Py.bind]. split; [|discriminate].
      erewrite bind_raise.
      * rewrite (set_nth_same _ _ Hd). reflexivity.
      * erewrite bind_raise; [reflexivity|].
        eapply list_getitem_raise; eassumption.
Qed.

End EdgeLoop.

Lemma unchanged_refl (h : heap) : unchanged h h.
Proof. unfold unchanged. apply firstn_all. Qed.

Lemma unchanged_app (h H l : heap) : unchanged h H -> unchanged h (H ++ l).
Proof.
  unfold unchanged. intros E.
  assert (Hle : List.length h <= List.length H).
  { rewrite <- E at 1. rewrite length_firstn. lia. }
  rewrite firstn_app. replace (List.length h - List.length H) with 0 by lia.
  cbn. rewrite app_nil_r. exact E.
Qed.

Lemma firstn_set_nth (H : heap) : forall n r o,
  n <= r -> firstn n (set_nth H r o) = firstn n H.
Proof.
  induction H as [|x H IH]; intros [|n] [|r] o Hle; cbn; auto; try lia.
  rewrite IH by lia. reflexivity.
Qed.

Lemma unchanged_set (h H : heap) (r : ref) (o : object) :
  unchanged h H -> List.length h <= r -> unchanged h (set_nth H r o).
Proof.
  unfold unchanged. intros E Hle. rewrite firstn_set_nth by exact Hle. exact E.
Qed.

Lemma unchanged_lookup (h H : heap) (r : ref) (o : object) :
  unchanged h H -> nth_error h r = Some o -> nth_error H r = Some o.
Proof.
  unfold unchanged. intros E Hr. rewrite <- E in Hr.
  assert (Hlt : r < List.length h) by (apply nth_error_Some; congruence).
  rewrite nth_error_firstn in Hr.
  destruct (Nat.ltb_spec r (List.length h)); [exact Hr | lia].
Qed.

Lemma nth_error_last (H : heap) (o : object) :
  nth_error (H ++ [o]) (List.length H) = Some o.
Proof. rewrite nth_error_app2, Nat.sub_diag by lia. reflexivity. Qed.

End StoreFacts.

(* ================================================================= *)
(** ** [make_graph] leaves its arguments alone *)

Section Frame.
Import Store StoreFacts.
Variable str : float -> string.

(** Choosing the names: the labels object itself, or a fresh list. No
    object changes. *)
Lemma names_ref_run (h H : heap) (am : ref) (labels : option ref)
    (M : Np.ndarray float) (L : option (list string)) :
  StoreOps.unchanged h H ->
  nth_error h am = Some (Floats2 M) -> StoreOps.labels_in h labels L ->
  exists names tail,
    StoreOps.names_ref am labels H = Some (Ok names, H ++ tail)
    /\ nth_error (H ++ tail) names = Some (StrList (names_of M L)).
Proof.
  intros Hun Ham Hl.
  assert (Hfresh :
    bind (StoreOps.load_floats2 am) (fun a => alloc (StrList (default_names a))) H
    = Some (Ok (List.length H), H ++ [StrList (default_names M)])).
  { erewrite bind_ok; [reflexivity|].
    apply load_floats2_run. eapply unchanged_lookup; eassumption. }
  destruct labels as [l|], L as [Ls|]; cbn in Hl; try contradiction.
  - cbn [StoreOps.names_ref].
    erewrite bind_ok;
      [|apply load_list_run; eapply unchanged_lookup; eassumption].
    destruct Ls as [|x Ls]; cbn [truthy names_of].
    + exists (List.length H), [StrList (default_names M)].
      split; [exact Hfresh | apply nth_error_last].
    + exists l, []. rewrite app_nil_r. split; [reflexivity|].
      eapply unchanged_lookup; eassumption.
  - cbn [StoreOps.names_ref names_of].
    exists (List.length H), [StrList (default_names M)].
    split; [exact Hfresh | apply nth_error_last].
Qed.

Lemma make_graph_run (h : heap) (am : ref) (labels : option ref)
    (M : Np.ndarray float) (L : option (list string)) :
  nth_error h am = Some (Floats2 M) -> StoreOps.labels_in h labels L ->
  exists res h',
    StoreOps.make_graph str am labels h = Some (res, h')
    /\ StoreOps.unchanged h h'
    /\ match make_graph str M L with
       | Ok d => exists r, res = Ok r /\ List.length h <= r
                           /\ nth_error h' r = Some (Graph d)
       | Raise e => res = Raise e
       end.
Proof.
  intros Ham Hl. unfold StoreOps.make_graph, make_graph.
  set (idx := Np.gt (Np.abs M) threshold).
  (* absm = np.abs(adjacency_matrix) *)
  set (h1 := h ++ [Floats2 (Np.abs M)]).
  assert (U1 : StoreOps.unchanged h h1) by (apply unchanged_app, unchanged_refl).
  erewrite bind_ok with (h' := h1) (a := List.length h);
    [|unfold StoreOps.np_abs; erewrite bind_ok;
      [reflexivity | apply load_floats2_run; exact Ham]].
  (* idx = absm > 0.01 *)
  set (h2 := h1 ++ [Bools2 idx]).
  assert (U2 : StoreOps.unchanged h h2) by (apply unchanged_app, U1).
  erewrite bind_ok with (h' := h2) (a := List.length h1);
    [|unfold StoreOps.np_gt; erewrite bind_ok;
      [reflexivity | apply load_floats2_run; apply nth_error_last]].
  (* dirs = np.where(idx) *)
  set (h3 := h2 ++ [Ints1 (fst (Np.where_ idx))]).
  set (h4 := h3 ++ [Ints1 (snd (Np.where_ idx))]).
  assert (U4 : StoreOps.unchanged h h4) by (apply unchanged_app, unchanged_app, U2).
  erewrite bind_ok with (h' := h4) (a := (List.length h2, List.length h3));
    [|unfold StoreOps.np_where; erewrite bind_ok;
      [reflexivity | apply load_bools2_run; apply nth_error_last]].
  (* d = graphviz.Digraph(engine='dot') *)
  set (d := List.length h4).
  set (h5 := h4 ++ [Graph (Graphviz.new "dot")]).
  assert (U5 : StoreOps.unchanged h h5) by (apply unchanged_app, U4).
  erewrite bind_ok with (h' := h5) (a := d); [|reflexivity].
  (* names = labels if labels else [...] *)
  destruct (@names_ref_run h h5 am labels M L U5 Ham Hl) as [names [tail [Hnames Hlist]]].
  set (h6 := h5 ++ tail) in *.
  assert (U6 : StoreOps.unchanged h h6) by (apply unchanged_app, U5).
  erewrite bind_ok; [|exact Hnames].
  erewrite bind_ok; [|apply load_list_run; exact Hlist].
  (* for name in names: d.node(name) *)
  assert (Hd6 : nth_error h6 d = Some (Graph (Graphviz.new "dot"))).
  { unfold h6. apply nth_error_old. apply nth_error_last. }
  set (g1 := add_nodes (Graphviz.new "dot") (names_of M L)).
  set (h7 := set_nth h6 d (Graph g1)).
  assert (Hlen : List.length h <= d).
  { unfold d, h4, h3, h2, h1. rewrite !length_app. lia. }
  assert (U7 : StoreOps.unchanged h h7) by (apply unchanged_set; assumption).
  erewrite bind_ok; [|apply node_loop_run; exact Hd6].
  fold g1. fold h7.
  (* adjacency_matrix[idx] *)
  assert (Hidx7 : nth_error h7 (List.length h1) = Some (Bools2 idx)).
  { unfold h7. rewrite nth_error_set_nth_neq.
    - unfold h6, h5, h4, h3. do 4 apply nth_error_old. apply nth_error_last.
    - unfold d, h4, h3, h2. rewrite !length_app. cbn. lia. }
  set (vals := Np.boolean_index M idx).
  set (h8 := h7 ++ [Floats1 vals]).
  assert (U8 : StoreOps.unchanged h h8) by (apply unchanged_app, U7).
  erewrite bind_ok with (h' := h8) (a := List.length h7);
    [|unfold StoreOps.np_boolean_index;
      erewrite bind_ok;
      [|apply load_floats2_run; eapply unchanged_lookup; eassumption];
      erewrite bind_ok; [reflexivity | apply load_bools2_run; exact Hidx7]].
  (* the three arrays that are zipped *)
  assert (Hd_ne : forall k, k < d -> d <> k) by (intros; lia).
  erewrite bind_ok with (a := fst (Np.where_ idx)) (h' := h8).
  2:{ apply load_ints1_run. cbn [fst]. unfold h8, h7. apply nth_error_old.
      rewrite nth_error_set_nth_neq.
      - unfold h6, h5, h4. do 3 apply nth_error_old. apply nth_error_last.
      - unfold d, h4, h3. rewrite !length_app. cbn. lia. }
  erewrite bind_ok with (a := snd (Np.where_ idx)) (h' := h8).
  2:{ apply load_ints1_run. cbn [snd]. unfold h8, h7. apply nth_error_old.
      rewrite nth_error_set_nth_neq.
      - unfold h6, h5. do 2 apply nth_error_old. apply nth_error_last.
      - unfold d, h4. rewrite !length_app. cbn. lia. }
  erewrite bind_ok with (a := vals) (h' := h8);
    [|apply load_floats1_run; apply nth_error_last].
  (* the edge loop *)
  assert (Hd8 : nth_error h8 d = Some (Graph g1)).
  { unfold h8. apply nth_error_old. unfold h7. apply nth_error_set_nth_eq.
    apply nth_error_Some. congruence. }
  assert (Hn8 : nth_error h8 names = Some (StrList (names_of M L))).
  { unfold h8. apply nth_error_old. unfold h7.
    rewrite nth_error_set_nth_neq; [exact Hlist|].
    intros E. rewrite <- E, Hd6 in Hlist. discriminate. }
  destruct (@edge_loop_run str (names_of M L)
              (combine (fst (Np.where_ idx)) (combine (snd (Np.where_ idx)) vals))
              h8 names d g1 Hd8 Hn8) as [g' [Hrun Hfin]].
  fold g1.
  destruct (add_edges str (names_of M L) g1
              (combine (fst (Np.where_ idx)) (combine (snd (Np.where_ idx)) vals)))
    as [gf|e] eqn:Eadd.
  - erewrite bind_ok; [|exact Hrun].
    exists (Ok d), (set_nth h8 d (Graph g')). split; [reflexivity|].
    split; [apply unchanged_set; assumption|].
    exists d. split; [reflexivity|]. split; [exact Hlen|].
    rewrite (Hfin gf eq_refl). apply nth_error_set_nth_eq.
    apply nth_error_Some. congruence.
  - erewrite bind_raise; [|exact Hrun].
    exists (Raise e), (set_nth h8 d (Graph g')). split; [reflexivity|].
    split; [apply unchanged_set; assumption | reflexivity].
Qed.

(** C9. A call of [make_graph] never changes the adjacency matrix it
    is given: after the call, whether it returned or raised, the matrix
    object holds the values it held before. The same goes for the
    labels and for every other object that existed before the call; the
    call only allocates new objects and updates the graph it created,
    which it returns and which is the graph computed by the function
    read as a pure one. *)
Theorem make_graph_does_not_mutate (h : heap) (am : ref)
    (labels : option ref) (M : Np.ndarray float) (L : option (list string)) :
  nth_error h am = Some (Floats2 M) -> StoreOps.labels_in h labels L ->
  exists res h',
    StoreOps.make_graph str am labels h = Some (res, h')
    /\ nth_error h' am = Some (Floats2 M)
    /\ StoreOps.labels_in h' labels L
    /\ (forall r o, nth_error h r = Some o -> nth_error h' r = Some o)
    /\ match make_graph str M L with
       | Ok d => exists r, res = Ok r /\ List.length h <= r
                           /\ nth_error h' r = Some (Graph d)
       | Raise e => res = Raise e
       end.
Proof.
  intros Ham Hl.
  destruct (@make_graph_run h am labels M L Ham Hl) as [res [h' [Hrun [Hun Hres]]]].
  exists res, h'. split; [exact Hrun|].
  split; [eapply unchanged_lookup; eassumption|].
  split; [|split; [|exact Hres]].
  - destruct labels as [l|], L as [Ls|]; cbn in Hl |- *; auto.
    eapply unchanged_lookup; eassumption.
  - intros r o Hr. eapply unchanged_lookup; eassumption.
Qed.

End Frame.

(** C9 on a store that holds the 2 x 2 example and its two labels. *)
Lemma make_graph_does_not_mutate_witness :
  nth_error [Store.Floats2 [[0; 0.5]; [0.6; 0]]%float; Store.StrList ["A"; "B"]] 0
  = Some (Store.Floats2 [[0; 0.5]; [0.6; 0]]%float)
  /\ StoreOps.labels_in
       [Store.Floats2 [[0; 0.5]; [0.6; 0]]%float; Store.StrList ["A"; "B"]]
       (Some 1) (Some ["A"; "B"])
  /\ exists res h',
       StoreOps.make_graph str_fixture 0 (Some 1)
         [Store.Floats2 [[0; 0.5]; [0.6; 0]]%float; Store.StrList ["A"; "B"]]
       = Some (res, h')
       /\ nth_error h' 0 = Some (Store.Floats2 [[0; 0.5]; [0.6; 0]]%float)
       /\ nth_error h' 1 = Some (Store.StrList ["A"; "B"]).
Proof.
  split; [reflexivity|]. split; [reflexivity|].
  destruct (@make_graph_does_not_mutate str_fixture
              [Store.Floats2 [[0; 0.5]; [0.6; 0]]%float; Store.StrList ["A"; "B"]]
              0 (Some 1) [[0; 0.5]; [0.6; 0]]%float (Some ["A"; "B"])
              eq_refl eq_refl) as [res [h' [Hrun [Hm [Hl _]]]]].
  exists res, h'. auto.
Defined.

(* ================================================================= *)
(** ** Reading back what [str_to_dot] wrote *)

Lemma all_chars_append (p : ascii -> bool) (a b : string) :
  all_chars p (a ++ b) = all_chars p a && all_chars p b.
Proof.
  induction a as [|c a IH]; cbn; [reflexivity|].
  rewrite IH, andb_assoc. reflexivity.
Qed.

Lemma all_chars_impl (p q : ascii -> bool) (s : string) :
  (forall c, p c = true -> q c = true) ->
  all_chars p s = true -> all_chars q s = true.
Proof.
  intros Hpq. induction s as [|c s IH]; cbn; [reflexivity|].
  intros H. apply andb_true_iff in H. destruct H as [Hc Hs].
  rewrite (Hpq c Hc), (IH Hs). reflexivity.
Qed.

Lemma replace_absent (old : ascii) (new s : string) :
  all_chars (no_char old) s = true -> replace old new s = s.
Proof.
  induction s as [|c s IH]; cbn; [reflexivity|].
  intros H. apply andb_true_iff in H. destruct H as [Hc Hs].
  unfold no_char in Hc. apply negb_true_iff in Hc. rewrite Hc, (IH Hs).
  reflexivity.
Qed.

Lemma norm_text_clean (s : string) :
  all_chars (no_char LF) s = true -> all_chars (no_char TAB) s = true ->
  norm_text s = s.
Proof.
  intros Hlf Htab. unfold norm_text.
  rewrite (@replace_absent LF ";" s Hlf), (@replace_absent TAB "" s Htab).
  reflexivity.
Qed.

Lemma strip_prefix_append (p s : string) : strip_prefix p (p ++ s) = Some s.
Proof.
  induction p as [|c p IH]; cbn; [destruct s; reflexivity|].
  rewrite Ascii.eqb_refl. exact IH.
Qed.

Lemma cut_first (p0 : ascii) (pt a b : string) :
  all_chars (no_char p0) a = true ->
  cut (String p0 pt) (a ++ String p0 pt ++ b) = Some (a, b).
Proof.
  induction a as [|c a IH]; intros Ha.
  - cbn [String.append]. 
    pose proof (strip_prefix_append (String p0 pt) b) as Hp.
    cbn [String.append] in Hp.
    destruct (pt ++ b)%string eqn:E; cbn [cut]; rewrite Hp; reflexivity.
  - cbn in Ha. apply andb_true_iff in Ha. destruct Ha as [Hc Ha].
    unfold no_char in Hc. apply negb_true_iff in Hc.
    change ((String c a ++ String p0 pt ++ b)%string)
      with (String c (a ++ String p0 pt ++ b)).
    cbn [cut strip_prefix].
    rewrite (Ascii.eqb_sym p0 c), Hc, (IH Ha). reflexivity.
Qed.

Lemma cut_absent (p0 : ascii) (pt s : string) :
  all_chars (no_char p0) s = true -> cut (String p0 pt) s = None.
Proof.
  induction s as [|c s IH]; intros Hs; [reflexivity|].
  cbn in Hs. apply andb_true_iff in Hs. destruct Hs as [Hc Hs].
  unfold no_char in Hc. apply negb_true_iff in Hc.
  cbn [cut strip_prefix]. rewrite (Ascii.eqb_sym p0 c), Hc, (IH Hs).
  reflexivity.
Qed.

(** *** Characters *)

Lemma idle_name_start (c : ascii) :
  is_name_start c = true -> idle c = Some ([], Word (String c "")).
Proof.
  destruct c as [[] [] [] [] [] [] [] []]; cbn; intros H;
    try reflexivity; discriminate H.
Qed.

Lemma idle_num_char (c : ascii) :
  is_num_char c = true -> idle c = Some ([], Num (String c "")).
Proof.
  destruct c as [[] [] [] [] [] [] [] []]; cbn; intros H;
    try reflexivity; discriminate H.
Qed.

Lemma num_char_not_gt (c : ascii) :
  is_num_char c = true -> Ascii.eqb c ">" = false.
Proof.
  destruct c as [[] [] [] [] [] [] [] []]; cbn; intros H;
    try reflexivity; discriminate H.
Qed.

Lemma name_char_word_char (c : ascii) :
  is_name_char c = true -> is_word_char c = true.
Proof. unfold is_word_char. intros ->. reflexivity. Qed.

Lemma digit_num_char (c : ascii) : is_digit c = true -> is_num_char c = true.
Proof. unfold is_num_char. intros ->. reflexivity. Qed.

(** *** The scanner on runs of characters *)

Lemma pre_nil (o : option (list token)) : pre [] o = o.
Proof. destruct o; reflexivity. Qed.

Lemma pre_pre (a b : list token) (o : option (list token)) :
  pre a (pre b o) = pre (a ++ b) o.
Proof. destruct o; cbn; [rewrite app_assoc|]; reflexivity. Qed.

Lemma push_append (acc : string) (c : ascii) (x : string) :
  (push acc c ++ x)%string = (acc ++ String c x)%string.
Proof. unfold push. rewrite string_app_assoc. reflexivity. Qed.

Lemma lex_word_run (x rest : string) : forall acc,
  all_chars is_word_char x = true ->
  lex_go (Word acc) (x ++ rest) = lex_go (Word (acc ++ x)) rest.
Proof.
  induction x as [|c x IH]; intros acc Hx.
  - rewrite string_app_nil_r. reflexivity.
  - cbn in Hx. apply andb_true_iff in Hx. destruct Hx as [Hc Hx].
    cbn [String.append lex_go step]. rewrite Hc, pre_nil, (IH _ Hx), push_append.
    reflexivity.
Qed.

Lemma lex_num_run (x rest : string) : forall acc,
  all_chars is_num_char x = true ->
  lex_go (Num acc) (x ++ rest) = lex_go (Num (acc ++ x)) rest.
Proof.
  induction x as [|c x IH]; intros acc Hx.
  - rewrite string_app_nil_r. reflexivity.
  - cbn in Hx. apply andb_true_iff in Hx. destruct Hx as [Hc Hx].
    cbn [String.append lex_go step]. rewrite Hc, pre_nil, (IH _ Hx), push_append.
    reflexivity.
Qed.

Lemma lex_word_flush (acc rest : string) :
  delimited rest = true ->
  lex_go (Word acc) rest = pre [word_token acc] (lex_go Idle rest).
Proof.
  destruct rest as [|c r]; [discriminate|]. cbn [delimited]. intros H.
  apply andb_true_iff in H. destruct H as [Hw _]. apply negb_true_iff in Hw.
  cbn [lex_go step]. rewrite Hw. unfold after_token.
  destruct (idle c) as [[ts m]|]; [|reflexivity].
  destruct (lex_go m r); reflexivity.
Qed.

Lemma lex_num_flush (acc rest : string) :
  delimited rest = true ->
  lex_go (Num acc) rest = pre [TId acc] (lex_go Idle rest).
Proof.
  destruct rest as [|c r]; [discriminate|]. cbn [delimited]. intros H.
  apply andb_true_iff in H. destruct H as [_ Hn]. apply negb_true_iff in Hn.
  cbn [lex_go step]. rewrite Hn. unfold after_token.
  destruct (idle c) as [[ts m]|]; [|reflexivity].
  destruct (lex_go m r); reflexivity.
Qed.

Lemma lex_quote_run (x rest : string) : forall (odd : bool) (acc : string),
  even_backslashes odd x = true ->
  lex_go (if odd then QuoteEsc acc else Quote acc)
         (escape_quotes odd x ++ String DQ rest)
  = pre [TId ((if odd then push acc BSL else acc) ++ x)] (lex_go Idle rest).
Proof.
  assert (H1 : Ascii.eqb BSL DQ = false) by reflexivity.
  induction x as [|c x IH]; intros odd acc Hx.
  - destruct odd; [discriminate|].
    cbn. rewrite string_app_nil_r. destruct (lex_go Idle rest); reflexivity.
  - cbn [even_backslashes] in Hx. cbn [escape_quotes].
    destruct (Ascii.eqb c BSL) eqn:Hc.
    + apply Ascii.eqb_eq in Hc. subst c.
      specialize (IH (negb odd)).
      destruct odd; cbn [negb] in *; cbn [String.append lex_go step];
        rewrite ?H1, ?Ascii.eqb_refl, pre_nil.
      * rewrite (IH (push (push acc BSL) BSL) Hx), push_append. reflexivity.
      * rewrite (IH acc Hx), push_append. reflexivity.
    + destruct (Ascii.eqb c DQ) eqn:Hq.
      * apply Ascii.eqb_eq in Hq. subst c.
        destruct odd; [discriminate|]. cbn [negb andb] in Hx.
        cbn [String.append lex_go step].
        rewrite H1, !Ascii.eqb_refl, !pre_nil. cbn [step].
        rewrite Ascii.eqb_refl, pre_nil, (IH false _ Hx), push_append.
        reflexivity.
      * destruct odd; cbn [String.append lex_go step]; rewrite Hq, ?Hc, pre_nil.
        -- rewrite (IH false _ Hx), push_append. reflexivity.
        -- rewrite (IH false _ Hx), push_append. reflexivity.
Qed.

Lemma lex_html_run (x rest : string) : forall (depth : nat) (acc : string),
  closes depth x = true ->
  lex_go (Html depth acc) (x ++ rest)
  = pre [TId (acc ++ x)] (lex_go Idle rest).
Proof.
  induction x as [|c x IH]; intros depth acc Hx; [discriminate|].
  cbn [closes] in Hx. cbn [String.append lex_go step].
  destruct (Ascii.eqb c "<") eqn:Hl.
  - rewrite pre_nil, (IH _ _ Hx), push_append. reflexivity.
  - destruct (Ascii.eqb c ">") eqn:Hg.
    + destruct depth as [|depth].
      * apply String.eqb_eq in Hx. subst x. cbn [String.append].
        unfold push. reflexivity.
      * rewrite pre_nil, (IH _ _ Hx), push_append. reflexivity.
    + rewrite pre_nil, (IH _ _ Hx), push_append. reflexivity.
Qed.

(** *** An identifier as the engine writes it, read back *)

Lemma last_char_all_chars (p : ascii -> bool) (s : string) (c : ascii) :
  all_chars p s = true -> last_char s = Some c -> p c = true.
Proof.
  induction s as [|x s IH]; [discriminate|]. intros H Hl.
  cbn in H. apply andb_true_iff in H. destruct H as [Hx Hs].
  destruct s as [|y s]; [cbn in Hl; congruence|].
  apply IH; [exact Hs | exact Hl].
Qed.

Lemma before_final_LF_absent (s : string) :
  all_chars (no_char LF) s = true -> before_final_LF s = None.
Proof.
  intros Hs. unfold before_final_LF.
  destruct (last_char s) as [c|] eqn:Hl; [|reflexivity].
  pose proof (@last_char_all_chars _ _ _ Hs Hl) as Hc.
  unfold no_char in Hc. apply negb_true_iff in Hc. rewrite Hc. reflexivity.
Qed.

Lemma after_digits_chars (t : string) :
  all_chars is_num_char (after_digits t) = true ->
  all_chars is_num_char t = true.
Proof.
  induction t as [|c t IH]; [reflexivity|]. cbn [after_digits].
  destruct (is_digit c) eqn:Hd; [|trivial].
  intros H. cbn [all_chars]. rewrite (digit_num_char _ Hd), (IH H).
  reflexivity.
Qed.

Lemma unsigned_numeral_chars (u : string) :
  unsigned_numeral u = true ->
  exists c t, u = String c t /\ is_num_char c = true
              /\ all_chars is_num_char t = true.
Proof.
  destruct u as [|c t]; [discriminate|]. cbn [unsigned_numeral].
  intros H. exists c, t. split; [reflexivity|].
  destruct (Ascii.eqb c ".") eqn:Hp.
  - apply andb_true_iff in H. destruct H as [_ Ht]. split.
    + unfold is_num_char. rewrite Hp. apply orb_true_r.
    + exact (@all_chars_impl _ _ _ digit_num_char Ht).
  - apply andb_true_iff in H. destruct H as [Hc Ht]. split.
    + exact (digit_num_char _ Hc).
    + apply after_digits_chars.
      destruct (after_digits t) as [|d r]; [reflexivity|].
      apply andb_true_iff in Ht. destruct Ht as [Hd Hr].
      cbn [all_chars]. unfold is_num_char at 1. rewrite Hd, orb_true_r.
      exact (@all_chars_impl _ _ _ digit_num_char Hr).
Qed.

Lemma lex_numeral (c : ascii) (t rest : string) :
  is_num_char c = true -> all_chars is_num_char t = true ->
  delimited rest = true ->
  lex_go Idle (String c t ++ rest)
  = pre [TId (String c t)] (lex_go Idle rest).
Proof.
  intros Hc Ht Hrest. cbn [String.append lex_go step].
  rewrite (idle_num_char _ Hc), pre_nil, (@lex_num_run _ _ _ Ht).
  exact (@lex_num_flush _ _ Hrest).
Qed.

Lemma lex_negative (c : ascii) (t rest : string) :
  is_num_char c = true -> all_chars is_num_char t = true ->
  delimited rest = true ->
  lex_go Idle (String "-" (String c t) ++ rest)
  = pre [TId (String "-" (String c t))] (lex_go Idle rest).
Proof.
  intros Hc Ht Hrest.
  change (lex_go Idle (String "-" (String c t) ++ rest))
    with (pre [] (match step Minus c with
                  | Some (ts, m') => pre ts (lex_go m' (t ++ rest))
                  | None => None
                  end)).
  cbn [step]. rewrite (num_char_not_gt _ Hc), Hc, !pre_nil.
  rewrite (@lex_num_run _ _ _ Ht).
  exact (@lex_num_flush _ _ Hrest).
Qed.

Lemma lex_name (c : ascii) (t rest : string) :
  is_name_start c = true -> all_chars is_name_char t = true ->
  is_keyword (lower (String c t)) = false ->
  delimited rest = true ->
  lex_go Idle (String c t ++ rest)
  = pre [TId (String c t)] (lex_go Idle rest).
Proof.
  intros Hc Ht Hk Hrest. cbn [String.append lex_go step].
  rewrite (idle_name_start _ Hc), pre_nil.
  rewrite (@lex_word_run _ _ _ (@all_chars_impl _ _ _ name_char_word_char Ht)).
  rewrite (@lex_word_flush _ _ Hrest). unfold word_token.
  change (String c "" ++ t)%string with (String c t). rewrite Hk.
  reflexivity.
Qed.

Lemma lex_gv_quote (x rest : string) :
  plain_value x = true -> delimited rest = true ->
  lex_go Idle (gv_quote x ++ rest) = pre [TId x] (lex_go Idle rest).
Proof.
  unfold plain_value. intros Hx Hrest.
  apply andb_true_iff in Hx. destruct Hx as [Hx Hcase].
  apply andb_true_iff in Hx. destruct Hx as [_ Hlf].
  unfold gv_quote. destruct (html_like x) eqn:Hh.
  - destruct x as [|c t]; [discriminate|]. cbn [well_nested] in Hcase.
    apply andb_true_iff in Hcase. destruct Hcase as [Hc Ht].
    apply Ascii.eqb_eq in Hc. subst c.
    change (lex_go Idle (String "<" t ++ rest))
      with (pre [] (lex_go (Html 0 "<") (t ++ rest))).
    rewrite pre_nil. exact (@lex_html_run _ _ _ _ Ht).
  - destruct (negb (valid_id x) || is_keyword (lower x)) eqn:Hq.
    + change (lex_go Idle
                (String DQ (escape_quotes false x ++ String DQ "") ++ rest))
        with (pre [] (lex_go (Quote "")
                        ((escape_quotes false x ++ String DQ "") ++ rest))).
      rewrite pre_nil, string_app_assoc.
      exact (@lex_quote_run x rest false "" Hcase).
    + apply orb_false_iff in Hq. destruct Hq as [Hv Hk].
      apply negb_false_iff in Hv. unfold valid_id in Hv.
      rewrite (before_final_LF_absent _ Hlf), orb_false_r in Hv.
      apply orb_true_iff in Hv. destruct Hv as [Hn|Hn].
      * destruct x as [|c t]; [discriminate|]. cbn [name_like] in Hn.
        apply andb_true_iff in Hn. destruct Hn as [Hc Ht].
        exact (@lex_name _ _ _ Hc Ht Hk Hrest).
      * destruct x as [|c t]; [discriminate|]. cbn [numeral_like] in Hn.
        destruct (Ascii.eqb c "-") eqn:Hm.
        -- apply Ascii.eqb_eq in Hm. subst c.
           destruct (unsigned_numeral_chars _ Hn) as (d & r & -> & Hd & Hr).
           exact (@lex_negative _ _ _ Hd Hr Hrest).
        -- destruct (unsigned_numeral_chars _ Hn) as (d & r & E & Hd & Hr).
           rewrite E. exact (@lex_numeral _ _ _ Hd Hr Hrest).
Qed.

(** *** A statement as the engine writes it, read back *)

Lemma gv_quote_edge_plain (x : string) :
  all_chars (no_char ":") x = true -> gv_quote_edge x = gv_quote x.
Proof.
  intros Hx. unfold gv_quote_edge. rewrite (@cut_absent ":" "" x Hx).
  reflexivity.
Qed.

Lemma plain_name_value (x : string) :
  plain_name x = true -> plain_value x = true.
Proof. unfold plain_name. intros H. apply andb_true_iff in H. apply H. Qed.

Lemma plain_name_colon (x : string) :
  plain_name x = true -> all_chars (no_char ":") x = true.
Proof. unfold plain_name. intros H. apply andb_true_iff in H. apply H. Qed.

Lemma gv_stmt_text_plain (st : stmt) :
  plain_stmt st = true -> gv_stmt_text st = stmt_text gv_quote gv_quote st.
Proof.
  destruct st as [n|t h l]; [reflexivity|]. cbn [plain_stmt]. intros H.
  apply andb_true_iff in H. destruct H as [H _].
  apply andb_true_iff in H. destruct H as [Ht Hh].
  cbn [gv_stmt_text stmt_text].
  rewrite (@gv_quote_edge_plain _ (@plain_name_colon _ Ht)).
  rewrite (@gv_quote_edge_plain _ (@plain_name_colon _ Hh)).
  reflexivity.
Qed.

Lemma render_source (d : Digraph) :
  forallb plain_stmt (body d) = true -> render d = source gv_quote gv_quote d.
Proof.
  intros Hb. unfold render, source. do 2 f_equal. f_equal. f_equal.
  apply map_ext_in. intros st Hin. unfold body_line.
  rewrite forallb_forall in Hb. rewrite (@gv_stmt_text_plain _ (Hb _ Hin)).
  reflexivity.
Qed.

Lemma escape_quotes_keeps (p : ascii -> bool) (x : string) : forall odd,
  p BSL = true -> all_chars p x = true ->
  all_chars p (escape_quotes odd x) = true.
Proof.
  induction x as [|c x IH]; intros odd Hb Hx; [reflexivity|].
  cbn in Hx. apply andb_true_iff in Hx. destruct Hx as [Hc Hx].
  cbn [escape_quotes].
  destruct (Ascii.eqb c BSL); [|destruct (Ascii.eqb c DQ); [destruct odd|]];
    cbn [all_chars]; rewrite ?Hb, Hc, (IH _ Hb Hx); reflexivity.
Qed.

Lemma gv_quote_keeps (p : ascii -> bool) (x : string) :
  p DQ = true -> p BSL = true -> all_chars p x = true ->
  all_chars p (gv_quote x) = true.
Proof.
  intros Hq Hb Hx. unfold gv_quote.
  destruct (html_like x); [exact Hx|].
  destruct (negb (valid_id x) || is_keyword (lower x)); [|exact Hx].
  cbn [all_chars]. rewrite Hq, all_chars_append, (@escape_quotes_keeps p x false Hb Hx).
  cbn [all_chars]. rewrite Hq. reflexivity.
Qed.

Lemma plain_value_clean (x : string) :
  plain_value x = true ->
  all_chars (no_char TAB) (gv_quote x) = true
  /\ all_chars (no_char LF) (gv_quote x) = true.
Proof.
  unfold plain_value. intros H.
  apply andb_true_iff in H. destruct H as [H _].
  apply andb_true_iff in H. destruct H as [Ht Hl].
  split; apply gv_quote_keeps; auto.
Qed.

Lemma norm_stmt_plain (st : stmt) :
  plain_stmt st = true -> norm_stmt gv_quote gv_quote st = gv_stmt_text st.
Proof.
  intros Hp. unfold norm_stmt. rewrite (@gv_stmt_text_plain _ Hp).
  destruct st as [n|t h l]; cbn [plain_stmt stmt_text] in *.
  - destruct (@plain_value_clean _ Hp) as [Ht Hl].
    exact (@norm_text_clean _ Hl Ht).
  - apply andb_true_iff in Hp. destruct Hp as [Hp Hlab].
    apply andb_true_iff in Hp. destruct Hp as [Htl Hhd].
    destruct (@plain_value_clean _ (@plain_name_value _ Htl)) as [Ht1 Hl1].
    destruct (@plain_value_clean _ (@plain_name_value _ Hhd)) as [Ht2 Hl2].
    destruct (@plain_value_clean _ Hlab) as [Ht3 Hl3].
    apply norm_text_clean; rewrite !all_chars_append;
      rewrite ?Ht1, ?Ht2, ?Ht3, ?Hl1, ?Hl2, ?Hl3; reflexivity.
Qed.

(** The scanner run on the characters the engine writes around the
    identifiers. *)
Ltac lex_literal :=
  cbn [String.append lex_go]; cbv -[lex_go pre];
  rewrite ?pre_nil, ?pre_pre; reflexivity.

Lemma lex_arrow (rest : string) :
  lex_go Idle (" -> " ++ rest) = pre [TArrow] (lex_go Idle rest).
Proof. lex_literal. Qed.

Lemma lex_label_open (rest : string) :
  lex_go Idle (" [label=" ++ rest)
  = pre [TLBrack; TId "label"; TEq] (lex_go Idle rest).
Proof. lex_literal. Qed.

Lemma lex_bracket_close (rest : string) :
  lex_go Idle ("]" ++ rest) = pre [TRBrack] (lex_go Idle rest).
Proof. lex_literal. Qed.

Lemma lex_semicolon (rest : string) :
  lex_go Idle (";" ++ rest) = pre [TSemi] (lex_go Idle rest).
Proof. lex_literal. Qed.

Lemma lex_header (rest : string) :
  lex_go Idle ("digraph {" ++ rest)
  = pre [TKw "digraph"; TLBrace] (lex_go Idle rest).
Proof. lex_literal. Qed.

Lemma lex_stmt (st : stmt) (rest : string) :
  plain_stmt st = true -> delimited rest = true ->
  lex_go Idle (gv_stmt_text st ++ rest) = pre (toks_of st) (lex_go Idle rest).
Proof.
  intros Hp Hrest. destruct st as [n|t h l]; cbn [plain_stmt] in Hp.
  - exact (@lex_gv_quote _ _ Hp Hrest).
  - apply andb_true_iff in Hp. destruct Hp as [Hp Hlab].
    apply andb_true_iff in Hp. destruct Hp as [Htl Hhd].
    cbn [gv_stmt_text toks_of].
    rewrite (@gv_quote_edge_plain _ (@plain_name_colon _ Htl)).
    rewrite (@gv_quote_edge_plain _ (@plain_name_colon _ Hhd)).
    rewrite !string_app_assoc.
    rewrite (@lex_gv_quote t);
      [| exact (@plain_name_value _ Htl) | reflexivity].
    rewrite lex_arrow, (@lex_gv_quote h);
      [| exact (@plain_name_value _ Hhd) | reflexivity].
    rewrite lex_label_open, (@lex_gv_quote l); [| exact Hlab | reflexivity].
    rewrite lex_bracket_close.
    rewrite !pre_pre. reflexivity.
Qed.

Lemma lex_body (b : list stmt) :
  forallb plain_stmt b = true ->
  lex_go Idle (join ";" (map gv_stmt_text b) ++ "}")
  = Some (toks_body b ++ [TRBrace]).
Proof.
  induction b as [|st b IH]; intros Hb; [reflexivity|].
  cbn [forallb] in Hb. apply andb_true_iff in Hb. destruct Hb as [Hst Hb].
  destruct b as [|st' b].
  - cbn [map join toks_body].
    rewrite (@lex_stmt st); [reflexivity | exact Hst | reflexivity].
  - change (join ";" (map gv_stmt_text (st :: st' :: b)))
      with (gv_stmt_text st ++ ";" ++ join ";" (map gv_stmt_text (st' :: b)))%string.
    rewrite !string_app_assoc.
    rewrite (@lex_stmt st); [| exact Hst | reflexivity].
    rewrite lex_semicolon, (IH Hb).
    cbn [pre toks_body]. rewrite <- !app_assoc. reflexivity.
Qed.

(** *** The reader on the tokens of statements *)

Lemma parse_stmt_then (st : stmt) (acc : list stmt) (rest : list token) :
  parse_go SStmt acc (toks_of st ++ TSemi :: rest)
  = parse_go SStmt (acc ++ [st]) rest.
Proof. destruct st; cbn; rewrite ?app_nil_r; reflexivity. Qed.

Lemma parse_stmt_last (st : stmt) (acc : list stmt) :
  parse_go SStmt acc (toks_of st ++ [TRBrace]) = Some (acc ++ [st]).
Proof. destruct st; cbn; rewrite ?app_nil_r; reflexivity. Qed.

Lemma parse_body (b : list stmt) : forall acc,
  parse_go SStmt acc (toks_body b ++ [TRBrace]) = Some (acc ++ b).
Proof.
  induction b as [|st b IH]; intros acc.
  - cbn. rewrite !app_nil_r. reflexivity.
  - destruct b as [|st' b].
    + exact (parse_stmt_last st acc).
    + change (toks_body (st :: st' :: b))
        with (toks_of st ++ TSemi :: toks_body (st' :: b)).
      rewrite <- app_assoc. cbn [app].
      rewrite parse_stmt_then, IH, <- app_assoc. reflexivity.
Qed.

(** The one-line text of plain statements reads back as these
    statements. *)
Lemma parse_dot_join (b : list stmt) :
  forallb plain_stmt b = true ->
  parse_dot ("digraph {" ++ join ";" (map gv_stmt_text b) ++ "}") = Some b.
Proof.
  intros Hb. unfold parse_dot. rewrite lex_header, (@lex_body _ Hb).
  cbn [pre app parse_go pstep String.eqb Ascii.eqb Bool.eqb].
  exact (parse_body b []).
Qed.

Lemma body_plain (str : float -> string) (M : Np.ndarray float)
    (labels : option (list string)) :
  plain_inputs str M labels = true ->
  forallb plain_stmt
    (map node_stmt (names_of M labels)
     ++ map (edge_of str (names_of M labels)) (hits M)) = true.
Proof.
  unfold plain_inputs. intros H.
  apply andb_true_iff in H. destruct H as [Hn He].
  rewrite forallb_forall in Hn, He.
  rewrite forallb_app. apply andb_true_iff.
  split; apply forallb_forall; intros st Hin;
    apply in_map_iff in Hin; destruct Hin as [x [<- Hin]].
  - exact (Hn x Hin).
  - exact (He x Hin).
Qed.

(** C7, within its limits. Take a square matrix and valid labels such
    that no node name and no text of a value above the threshold
    contains a tab or a line feed, has a backslash that escapes a
    double quote or the closing quote, or is of the HTML-like form with
    brackets that do not nest, and such that no node with an edge has a
    colon in its name. Then the text that [str_to_dot] makes of the
    rendered graph reads back as the statements of that graph: same
    nodes, same edges. Names with spaces, slashes, quotes and the like
    are covered, the engine quotes them. *)
Theorem render_read_back (str : float -> string) (N : nat)
    (M : Np.ndarray float) (labels : option (list string)) :
  square N M -> valid_labels N labels ->
  plain_inputs str M labels = true ->
  exists d t, make_graph str M labels = Ok d
    /\ str_to_dot (render d) = Ok t
    /\ exists b, parse_dot t = Some b
         /\ node_names b = nodes d /\ edge_triples b = edges d.
Proof.
  intros Hsq Hv Hp.
  pose proof (@make_graph_square str N M labels Hsq Hv) as Hd.
  eexists. eexists. split; [exact Hd|].
  match goal with |- context [render ?d] => set (g := d) end.
  assert (Hb : forallb plain_stmt (body g) = true)
    by exact (@body_plain str M labels Hp).
  rewrite (@render_source g Hb), str_to_dot_source.
  split; [reflexivity|].
  exists (body g). split; [|split; reflexivity].
  assert (E : map (norm_stmt gv_quote gv_quote) (body g)
              = map gv_stmt_text (body g)).
  { apply map_ext_in. intros st Hin. apply norm_stmt_plain.
    rewrite forallb_forall in Hb. exact (Hb st Hin). }
  change (parse_dot ("digraph {"
                     ++ join ";" (map (norm_stmt gv_quote gv_quote) (body g))
                     ++ "}") = Some (body g)).
  rewrite E. exact (@parse_dot_join _ Hb).
Qed.

(** C7 on the 2 x 2 example of the specification with a third node
    that has no edge; the names are such that the engine has to quote
    them, and the one with a colon is that of the third node. *)
Lemma render_read_back_witness :
  square 3 [[0; 0.5; 0]; [0.6; 0; 0]; [0; 0; 0]]%float
  /\ plain_inputs str_fixture [[0; 0.5; 0]; [0.6; 0; 0]; [0; 0; 0]]%float
       (Some ["model year"; "p44/42"; "t:1"]) = true
  /\ exists d t,
       make_graph str_fixture [[0; 0.5; 0]; [0.6; 0; 0]; [0; 0; 0]]%float
         (Some ["model year"; "p44/42"; "t:1"]) = Ok d
       /\ str_to_dot (render d) = Ok t
       /\ exists b, parse_dot t = Some b
            /\ node_names b = nodes d /\ edge_triples b = edges d.
Proof.
  assert (Hsq : square 3 [[0; 0.5; 0]; [0.6; 0; 0]; [0; 0; 0]]%float)
    by (apply squareb_spec; reflexivity).
  split; [exact Hsq|]. split; [reflexivity|].
  exact (@render_read_back str_fixture 3 _
           (Some ["model year"; "p44/42"; "t:1"]) Hsq eq_refl eq_refl).
Defined.

(** C7 as stated fails; labels that are valid for [make_graph] and are
    not read back:
    - a tab in a label is removed by [str_to_dot]; the text is the very
      text of the graph whose label has no tab, so no reader can tell
      the two graphs apart;
    - a line feed in a label becomes a semicolon, likewise;
    - a colon in a node name: the node is declared under its quoted
      name, but at the ends of an edge the engine writes the part after
      the colon as a port, and the edge is read as one of another node;
    - a backslash at the end of a label escapes the closing quote, and
      the text cannot be read;
    - angle brackets around a label that closes them too early. *)
Lemma label_not_read_back :
  (make_graph str_fixture [[0]]%float (Some [("a" ++ String TAB " b")%string])
   = Ok {| engine := "dot"; body := [node_stmt ("a" ++ String TAB " b")] |}
   /\ str_to_dot (render {| engine := "dot";
                            body := [node_stmt ("a" ++ String TAB " b")] |})
      = Ok ("digraph {" ++ dquote "a b" ++ "}")%string
   /\ str_to_dot (render {| engine := "dot"; body := [node_stmt "a b"] |})
      = Ok ("digraph {" ++ dquote "a b" ++ "}")%string
   /\ parse_dot ("digraph {" ++ dquote "a b" ++ "}") = Some [node_stmt "a b"]
   /\ String.eqb "a b" ("a" ++ String TAB " b") = false)
  /\ (make_graph str_fixture [[0]]%float (Some [("a" ++ String LF "b")%string])
      = Ok {| engine := "dot"; body := [node_stmt ("a" ++ String LF "b")] |}
      /\ str_to_dot (render {| engine := "dot";
                               body := [node_stmt ("a" ++ String LF "b")] |})
         = Ok ("digraph {" ++ dquote "a;b" ++ "}")%string
      /\ str_to_dot (render {| engine := "dot"; body := [node_stmt "a;b"] |})
         = Ok ("digraph {" ++ dquote "a;b" ++ "}")%string
      /\ parse_dot ("digraph {" ++ dquote "a;b" ++ "}") = Some [node_stmt "a;b"]
      /\ String.eqb "a;b" ("a" ++ String LF "b") = false)
  /\ (make_graph str_fixture [[0.5]]%float (Some ["a:b"])
      = Ok {| engine := "dot";
              body := [node_stmt "a:b"; edge_stmt "a:b" "a:b" "0.5"] |}
      /\ str_to_dot (render {| engine := "dot";
                               body := [node_stmt "a:b";
                                        edge_stmt "a:b" "a:b" "0.5"] |})
         = Ok ("digraph {" ++ dquote "a:b" ++ ";a:b -> a:b [label=0.5]}")%string
      /\ parse_dot ("digraph {" ++ dquote "a:b" ++ ";a:b -> a:b [label=0.5]}")
         = Some [node_stmt "a:b"; edge_stmt "a" "a" "0.5"]
      /\ String.eqb "a" "a:b" = false)
  /\ (make_graph str_fixture [[0]]%float (Some [String "a" (String BSL "")])
      = Ok {| engine := "dot"; body := [node_stmt (String "a" (String BSL ""))] |}
      /\ str_to_dot (render {| engine := "dot";
                               body := [node_stmt (String "a" (String BSL ""))] |})
         = Ok ("digraph {" ++ dquote (String "a" (String BSL "")) ++ "}")%string
      /\ parse_dot ("digraph {" ++ dquote (String "a" (String BSL "")) ++ "}")
         = None)
  /\ (make_graph str_fixture [[0]]%float (Some ["<a>b>"])
      = Ok {| engine := "dot"; body := [node_stmt "<a>b>"] |}
      /\ str_to_dot (render {| engine := "dot"; body := [node_stmt "<a>b>"] |})
         = Ok "digraph {<a>b>}"
      /\ parse_dot "digraph {<a>b>}" = None).
Proof. repeat split; reflexivity. Qed.

(* ================================================================= *)
(** ** [make_graph]: the graph is well formed *)

Lemma hits_index_NoDup (M : Np.ndarray float) :
  NoDup (map index_of (hits M)).
Proof.
  apply (StronglySorted_NoDup (R := rm_lt)); [|apply hits_sorted].
  intros [a b]. unfold rm_lt. cbn. lia.
Qed.

Lemma make_graph_ok_inv (str : float -> string) (M : Np.ndarray float)
    (labels : option (list string)) (d : Digraph) :
  make_graph str M labels = Ok d ->
  forallb (in_range (List.length (names_of M labels))) (hits M) = true
  /\ nodes d = names_of M labels
  /\ edges d = map (fun c => (nth (fst (snd c)) (names_of M labels) "",
                             nth (fst c) (names_of M labels) "",
                             str (snd (snd c)))) (hits M).
Proof.
  rewrite make_graph_spec. cbn zeta.
  destruct (forallb (in_range (List.length (names_of M labels))) (hits M));
    [|discriminate].
  intros H. inversion H; subst. split; [reflexivity|].
  unfold nodes, edges, node_names, edge_triples. cbn [body].
  split; [apply nodes_of_body | apply edges_of_body].
Qed.



Lemma endpoints_NoDup (str : float -> string) (names : list string)
    (hs : list (nat * (nat * float))) :
  NoDup names -> NoDup (map index_of hs) ->
  forallb (in_range (List.length names)) hs = true ->
  NoDup (map endpoints
           (map (fun c => (nth (fst (snd c)) names "", nth (fst c) names "",
                           str (snd (snd c)))) hs)).
Proof.
  intros Hnames Hidx Hr. rewrite map_map. cbn [endpoints fst snd].
  rewrite forallb_forall in Hr.
  assert (Heq : map (fun c : nat * (nat * float) =>
                       (nth (fst (snd c)) names "", nth (fst c) names "")) hs
                = map (fun ij : nat * nat =>
                         (nth (snd ij) names "", nth (fst ij) names ""))
                      (map index_of hs)).
  { rewrite map_map. reflexivity. }
  unfold endpoints. cbn [fst snd]. rewrite Heq.
  apply NoDup_map_NoDup_ForallPairs; [|exact Hidx].
  intros [i j] [i' j'] Hin Hin' Hsame. cbn [fst snd] in Hsame.
  apply in_map_iff in Hin, Hin'.
  destruct Hin as [c [Hc Hin]], Hin' as [c' [Hc' Hin']].
  pose proof (Hr _ Hin) as Rc. pose proof (Hr _ Hin') as Rc'.
  unfold in_range in Rc, Rc'. unfold index_of in Hc, Hc'.
  inversion Hc; subst. inversion Hc'; subst.
  apply andb_true_iff in Rc, Rc'. destruct Rc as [Hi Hj], Rc' as [Hi' Hj'].
  apply Nat.ltb_lt in Hi, Hj, Hi', Hj'.
  inversion Hsame as [[Hcol Hrow]].
  pose proof (proj1 (NoDup_nth names "") Hnames) as Hinj.
  rewrite (Hinj _ _ Hj Hj' Hcol), (Hinj _ _ Hi Hi' Hrow). reflexivity.
Qed.


Lemma format_int_inj (i j : nat) : format_int i = format_int j -> i = j.
Proof.
  unfold format_int. intros H. apply DecimalNat.Unsigned.to_uint_inj.
  pose proof (NilEmpty.usu (Nat.to_uint i)) as Hi.
  pose proof (NilEmpty.usu (Nat.to_uint j)) as Hj.
  rewrite H in Hi. congruence.
Qed.

Lemma default_names_NoDup (M : Np.ndarray float) : NoDup (default_names M).
Proof.
  unfold default_names. apply NoDup_map_NoDup_ForallPairs; [|apply seq_NoDup].
  intros i j _ _ H. apply format_int_inj. inversion H. reflexivity.
Qed.


(** X3. Without labels (or with an empty list of labels) the names
    x0, x1, ... that [make_graph] makes up are pairwise distinct, for a
    matrix of any size: a graph it returns has as many different nodes
    as the matrix has rows, and no two edges with the same ends. *)
Theorem make_graph_unlabelled_distinct (str : float -> string)
    (M : Np.ndarray float) (labels : option (list string)) (d : Digraph) :
  make_graph str M labels = Ok d ->
  labels = None \/ labels = Some [] ->
  NoDup (nodes d) /\ List.length (nodes d) = List.length M
  /\ NoDup (map endpoints (edges d)).
Proof.
  intros Hd Hl.
  assert (Hnames : names_of M labels = default_names M)
    by (destruct Hl; subst; reflexivity).
  destruct (make_graph_ok_inv _ _ _ Hd) as [Hr [Hn Hedges]].
  rewrite Hn, Hedges, Hnames in *.
  split; [apply default_names_NoDup|].
  split; [apply default_names_length|].
  apply endpoints_NoDup;
    [apply default_names_NoDup | apply hits_index_NoDup | exact Hr].
Qed.

(** X3 on the 2 x 2 example without labels. *)
Lemma make_graph_unlabelled_distinct_witness :
  make_graph str_fixture [[0; 0.5]; [0.6; 0]]%float None
  = Ok {| engine := "dot";
          body := [node_stmt "x0"; node_stmt "x1";
                   edge_stmt "x1" "x0" "0.5"; edge_stmt "x0" "x1" "0.6"] |}
  /\ NoDup ["x0"; "x1"] /\ List.length ["x0"; "x1"] = 2
  /\ NoDup [("x1", "x0"); ("x0", "x1")].
Proof.
  split; [reflexivity|].
  exact (@make_graph_unlabelled_distinct str_fixture [[0; 0.5]; [0.6; 0]]%float
           None _ eq_refl (or_introl eq_refl)).
Defined.

Lemma hits_nil_iff (M : Np.ndarray float) :
  hits M = [] <-> (forall i j w, cell M i j = Some w -> exceeds w = false).
Proof.
  split.
  - intros H i j w Hc. destruct (exceeds w) eqn:E; [|reflexivity].
    assert (Hin : In (i, (j, w)) (hits M)) by (apply In_hits; auto).
    rewrite H in Hin. contradiction.
  - intros H. destruct (hits M) as [|[i [j w]] hs] eqn:E; [reflexivity|].
    assert (Hin : In (i, (j, w)) (hits M)) by (rewrite E; left; reflexivity).
    apply In_hits in Hin. destruct Hin as [Hc He].
    rewrite (H i j w Hc) in He. discriminate.
Qed.

(** X7. A matrix without a cell above the threshold gives a graph
    without edges, whatever its shape and whatever the labels: the call
    cannot raise, and the nodes are the names. Conversely a returned
    graph is without edges only if no cell is above the threshold. *)
Theorem make_graph_below_threshold (str : float -> string)
    (M : Np.ndarray float) (labels : option (list string)) :
  ((forall i j w, cell M i j = Some w -> exceeds w = false) ->
   make_graph str M labels
   = Ok {| engine := "dot"; body := map node_stmt (names_of M labels) |})
  /\ (forall d, make_graph str M labels = Ok d -> edges d = [] ->
      forall i j w, cell M i j = Some w -> exceeds w = false).
Proof.
  split.
  - intros H. apply hits_nil_iff in H. rewrite make_graph_spec. cbn zeta.
    rewrite H. cbn. rewrite app_nil_r. reflexivity.
  - intros d Hd He. apply hits_nil_iff.
    destruct (make_graph_ok_inv _ _ _ Hd) as [_ [_ Hedges]].
    rewrite He in Hedges. destruct (hits M); [reflexivity | discriminate].
Qed.

Example make_graph_zero_any_shape :
  make_graph str_fixture [[0; 0.01; 0]; [0; 0; -0.01]]%float (Some ["A"])
  = Ok {| engine := "dot"; body := [node_stmt "A"] |}.
Proof. reflexivity. Qed.

(* ================================================================= *)
(** ** [str_to_dot]: what the result looks like *)

Lemma all_chars_substring (p : ascii -> bool) (s : string) : forall n m,
  all_chars p s = true -> all_chars p (substring n m s) = true.
Proof.
  induction s as [|c s IH]; intros n m H.
  - destruct n, m; reflexivity.
  - cbn in H. apply andb_true_iff in H. destruct H as [Hc Hs].
    destruct n as [|n].
    + destruct m as [|m]; [reflexivity|]. cbn. rewrite Hc. apply IH. exact Hs.
    + rewrite substring_skip. apply IH. exact Hs.
Qed.

Lemma all_chars_last (p : ascii -> bool) (s : string) (c : ascii) :
  all_chars p s = true -> last_char s = Some c -> p c = true.
Proof.
  induction s as [|x s IH]; [discriminate|]. intros H Hl.
  cbn in H. apply andb_true_iff in H. destruct H as [Hx Hs].
  destruct s as [|y s]; [cbn in Hl; congruence|].
  apply IH; [exact Hs | exact Hl].
Qed.

Lemma replace_keeps (p : ascii -> bool) (old : ascii) (new s : string) :
  all_chars p new = true -> all_chars p s = true ->
  all_chars p (replace old new s) = true.
Proof.
  intros Hnew. induction s as [|c s IH]; intros H; [reflexivity|].
  cbn in H. apply andb_true_iff in H. destruct H as [Hc Hs].
  cbn [replace]. destruct (Ascii.eqb c old).
  - rewrite all_chars_append, Hnew. apply IH. exact Hs.
  - cbn. rewrite Hc. apply IH. exact Hs.
Qed.

Lemma replace_removes (old : ascii) (new s : string) :
  all_chars (no_char old) new = true ->
  all_chars (no_char old) (replace old new s) = true.
Proof.
  intros Hnew. induction s as [|c s IH]; [reflexivity|].
  cbn [replace]. destruct (Ascii.eqb c old) eqn:E.
  - rewrite all_chars_append, Hnew. exact IH.
  - cbn. unfold no_char at 1. rewrite E. exact IH.
Qed.

Lemma normalized_one_line (s : string) :
  all_chars (no_char LF) (normalized s) = true
  /\ all_chars (no_char TAB) (normalized s) = true.
Proof.
  unfold normalized. split.
  - apply replace_keeps; [reflexivity|]. apply replace_removes. reflexivity.
  - apply replace_removes. reflexivity.
Qed.

Lemma str_to_dot_keeps (p : ascii -> bool) (s t : string) :
  all_chars p (normalized s) = true -> str_to_dot s = Ok t ->
  all_chars p t = true.
Proof.
  intros Hp. rewrite str_to_dot_eq.
  destruct (last_char (normalized s)) as [c|] eqn:Hl; [|discriminate].
  intros H. inversion H; subst.
  rewrite !all_chars_append, !all_chars_substring by exact Hp.
  cbn. rewrite (@all_chars_last p (normalized s) c Hp Hl). reflexivity.
Qed.

(** X4. Whatever the input, a text that [str_to_dot] returns contains
    no line feed and no tab: it is one line. *)
Theorem str_to_dot_one_line (s t : string) :
  str_to_dot s = Ok t ->
  all_chars (no_char LF) t = true /\ all_chars (no_char TAB) t = true.
Proof.
  intros H. destruct (normalized_one_line s) as [Hlf Htab].
  split; eapply str_to_dot_keeps; eassumption.
Qed.

(** X4 on a text with line feeds and tabs in the middle. *)
Lemma str_to_dot_one_line_witness :
  str_to_dot ("digraph {" ++ String LF (String TAB ("A" ++ String LF "}")))
  = Ok "digraph {A}"
  /\ all_chars (no_char LF) "digraph {A}" = true
  /\ all_chars (no_char TAB) "digraph {A}" = true.
Proof.
  split; [reflexivity|].
  exact (@str_to_dot_one_line
           ("digraph {" ++ String LF (String TAB ("A" ++ String LF "}")))
           "digraph {A}" eq_refl).
Defined.

Lemma lstrip_margin (a x : string) :
  all_space a = true -> lstrip (a ++ x) = lstrip x.
Proof.
  induction a as [|c a IH]; intros Ha; [reflexivity|].
  cbn in Ha. apply andb_true_iff in Ha. destruct Ha as [Hc Ha].
  cbn. rewrite Hc. apply IH. exact Ha.
Qed.

Lemma rstrip_margin (x b : string) :
  all_space b = true -> rstrip (x ++ b) = rstrip x.
Proof.
  intros Hb. induction x as [|c x IH].
  - cbn. apply rstrip_empty_iff. exact Hb.
  - cbn [String.append rstrip]. rewrite IH. reflexivity.
Qed.

Lemma strip_margin (a s b : string) :
  all_space a = true -> all_space b = true -> strip (a ++ s ++ b) = strip s.
Proof.
  intros Ha Hb. unfold strip. rewrite (@lstrip_margin a (s ++ b) Ha).
  induction s as [|c s IH].
  - cbn [String.append lstrip].
    replace (lstrip b) with "" by (symmetry; apply lstrip_empty_iff; exact Hb).
    reflexivity.
  - cbn [String.append lstrip]. destruct (isspace c); [exact IH|].
    apply (@rstrip_margin (String c s) b Hb).
Qed.

(** X5. Whitespace before and after the input makes no difference to
    [str_to_dot]: neither to the text it returns nor to whether it
    raises. (The rendered text of a graph may or may not end in a line
    feed.) *)
Theorem str_to_dot_ignores_margin (a s b : string) :
  all_space a = true -> all_space b = true ->
  str_to_dot (a ++ s ++ b) = str_to_dot s.
Proof.
  intros Ha Hb. rewrite !str_to_dot_eq. unfold normalized.
  rewrite (@strip_margin a s b Ha Hb). reflexivity.
Qed.

(** X5 on a rendered text with and without its final line feed. *)
Lemma str_to_dot_ignores_margin_witness :
  all_space "" = true /\ all_space (String LF "") = true
  /\ str_to_dot ("digraph {" ++ String LF (String TAB ("A" ++ String LF "}"))
                 ++ String LF "")
     = str_to_dot ("digraph {" ++ String LF (String TAB ("A" ++ String LF "}"))).
Proof.
  split; [reflexivity|]. split; [reflexivity|].
  exact (@str_to_dot_ignores_margin ""
           ("digraph {" ++ String LF (String TAB ("A" ++ String LF "}")))
           (String LF "") eq_refl eq_refl).
Defined.

(* ================================================================= *)
(** ** [str_to_dot] applied to its own result *)

Lemma last_char_app_r (w y : string) :
  y <> "" -> last_char (w ++ y) = last_char y.
Proof.
  intros Hy. induction w as [|c w IH]; [reflexivity|].
  cbn [String.append]. rewrite <- IH.
  destruct (w ++ y)%string eqn:E; [|reflexivity].
  destruct w; [cbn in E; congruence | discriminate].
Qed.

Lemma replace_last_keep (old : ascii) (new x : string) (c : ascii) :
  last_char x = Some c -> Ascii.eqb c old = false ->
  last_char (replace old new x) = Some c.
Proof.
  intros Hl Hc. induction x as [|a x IH]; [discriminate|].
  destruct x as [|b x].
  - cbn in Hl. inversion Hl; subst. cbn. rewrite Hc. reflexivity.
  - rewrite last_char_cons in Hl. specialize (IH Hl).
    assert (Hne : replace old new (String b x) <> "").
    { intros E. rewrite E in IH. discriminate. }
    change (replace old new (String a (String b x)))
      with (if Ascii.eqb a old then (new ++ replace old new (String b x))%string
            else String a (replace old new (String b x))).
    destruct (Ascii.eqb a old).
    + rewrite (@last_char_app_r new _ Hne). exact IH.
    + destruct (replace old new (String b x)) eqn:E; [congruence|].
      rewrite last_char_cons. exact IH.
Qed.

Lemma isspace_LF : isspace LF = true.
Proof. reflexivity. Qed.

Lemma isspace_TAB : isspace TAB = true.
Proof. reflexivity. Qed.

Lemma not_space_not (x c : ascii) :
  isspace x = true -> isspace c = false -> Ascii.eqb c x = false.
Proof.
  intros Hx Hc. destruct (Ascii.eqb_spec c x) as [->|]; [congruence | reflexivity].
Qed.

Lemma normalized_first (s : string) (c : ascii) :
  first_char (normalized s) = Some c -> isspace c = false.
Proof.
  unfold normalized. destruct (strip s) as [|x r] eqn:Hs; [discriminate|].
  assert (Hx : isspace x = false)
    by (apply (strip_first s); rewrite Hs; reflexivity).
  cbn [replace]. rewrite (@not_space_not LF x isspace_LF Hx). cbn [replace].
  rewrite (@not_space_not TAB x isspace_TAB Hx). cbn. congruence.
Qed.

Lemma normalized_last (s : string) (c : ascii) :
  last_char (normalized s) = Some c -> isspace c = false.
Proof.
  unfold normalized. intros H.
  destruct (last_char (strip s)) as [x|] eqn:Hl.
  - assert (Hx : isspace x = false) by (apply (strip_last s); exact Hl).
    pose proof (@replace_last_keep LF ";" (strip s) x Hl
                  (@not_space_not LF x isspace_LF Hx)) as H1.
    pose proof (@replace_last_keep TAB "" _ x H1
                  (@not_space_not TAB x isspace_TAB Hx)) as H2.
    congruence.
  - apply last_char_None in Hl. rewrite Hl in H. discriminate.
Qed.

Lemma lstrip_fixed (t : string) :
  (forall c, first_char t = Some c -> isspace c = false) -> lstrip t = t.
Proof.
  destruct t as [|x t]; [reflexivity|]. intros H.
  cbn. rewrite (H x eq_refl). reflexivity.
Qed.

Lemma rstrip_fixed (t : string) :
  (forall c, last_char t = Some c -> isspace c = false) -> rstrip t = t.
Proof.
  induction t as [|x t IH]; [reflexivity|]. intros H.
  destruct t as [|y t].
  - cbn. rewrite (H x eq_refl). reflexivity.
  - rewrite last_char_cons in H. specialize (IH H).
    change (rstrip (String x (String y t)))
      with (match rstrip (String y t) with
            | EmptyString => if isspace x then EmptyString else String x EmptyString
            | r => String x r
            end).
    rewrite IH. reflexivity.
Qed.

(** A text that [str_to_dot] returns is left as it is by the first
    three steps. *)
Lemma str_to_dot_result_normalized (s t : string) :
  str_to_dot s = Ok t -> normalized t = t.
Proof.
  intros H. destruct (@str_to_dot_one_line s t H) as [Hlf Htab].
  rewrite str_to_dot_eq in H.
  destruct (last_char (normalized s)) as [c|] eqn:Hl; [|discriminate].
  injection H as Ht.
  pose proof (@normalized_last s c Hl) as Hc.
  set (g := normalized s) in *.
  assert (Hfirst : forall a, first_char t = Some a -> isspace a = false).
  { intros a Ha. apply (normalized_first s). fold g.
    rewrite <- Ht in Ha. destruct g as [|x g']; [discriminate Hl|].
    cbn in Ha |- *. exact Ha. }
  assert (Hlast : forall a, last_char t = Some a -> isspace a = false).
  { intros a Ha. rewrite <- Ht in Ha.
    rewrite <- string_app_assoc, last_char_append in Ha. congruence. }
  unfold normalized, strip.
  rewrite (@lstrip_fixed t Hfirst), (@rstrip_fixed t Hlast).
  rewrite (@replace_absent LF ";" t Hlf), (@replace_absent TAB "" t Htab).
  reflexivity.
Qed.

(** X6. [str_to_dot] is not meant to be applied twice: on a text that
    it has returned it never raises, but it goes on deleting. The first
    three steps change nothing any more, and if the text has twelve
    characters or more, the character at index 9 and the second-to-last
    one are deleted once again. *)
Theorem str_to_dot_twice (s t : string) :
  str_to_dot s = Ok t ->
  normalized t = t
  /\ (exists u, str_to_dot t = Ok u)
  /\ (12 <= String.length t ->
      str_to_dot t
      = Ok (delete_at 9 (delete_at (String.length t - 2) t))).
Proof.
  intros H. pose proof (@str_to_dot_result_normalized s t H) as Hn.
  split; [exact Hn|]. split.
  - destruct (str_to_dot t) as [u|[]] eqn:E; [eauto|].
    apply str_to_dot_raises_iff, normalized_empty_iff in E.
    rewrite Hn in E. subst t. rewrite str_to_dot_eq in H.
    destruct (last_char (normalized s)); [|discriminate].
    injection H as Ht. apply (f_equal String.length) in Ht.
    rewrite !string_length_app in Ht. cbn in Ht. lia.
  - intros Hlen. pose proof (str_to_dot_deletes t) as Hd.
    rewrite Hn in Hd. apply Hd. exact Hlen.
Qed.

(** X6 on the converted text of a two-node graph: a second conversion
    eats into the statements. *)
Lemma str_to_dot_twice_witness :
  str_to_dot ("digraph {" ++ String LF (String TAB ("A" ++ String LF
              (String TAB ("B" ++ String LF "}")))))
  = Ok "digraph {A;B}"
  /\ str_to_dot "digraph {A;B}" = Ok "digraph {;}".
Proof.
  split; [reflexivity|].
  destruct (@str_to_dot_twice
              ("digraph {" ++ String LF (String TAB ("A" ++ String LF
                 (String TAB ("B" ++ String LF "}")))))
              "digraph {A;B}" eq_refl) as [_ [_ Hdel]].
  exact (Hdel (proj1 (Nat.leb_le 12 13) eq_refl)).
Defined.

(* ================================================================= *)
(** ** The discovery loop: one graph per method *)

Section DiscoveryFacts.
Import Store StoreFacts.
Variable str : float -> string.
Variable discover : string -> M ref.
Variable N : nat.
Variable found : string -> Np.ndarray float.
Variable l : ref.
Variable L : list string.






End DiscoveryFacts.




(* ================================================================= *)
(** ** The pairs of methods that are compared *)

Lemma In_combinations2 {A} (l : list A) (a b : A) :
  In (a, b) (combinations2 l) -> In a l /\ In b l.
Proof.
  induction l as [|x l IH]; cbn; [tauto|].
  intros H. apply in_app_or in H. destruct H as [H|H].
  - apply in_map_iff in H. destruct H as [y [Heq Hy]]. inversion Heq; subst.
    auto.
  - destruct (IH H). auto.
Qed.

Lemma combinations2_count {A} (l : list A) :
  2 * List.length (combinations2 l) = List.length l * (List.length l - 1).
Proof.
  induction l as [|x l IH]; [reflexivity|].
  cbn [combinations2 List.length]. rewrite length_app, length_map.
  rewrite Nat.sub_succ, Nat.sub_0_r. destruct l; cbn in *; nia.
Qed.

Lemma combinations2_NoDup {A} (l : list A) :
  NoDup l -> NoDup (combinations2 l).
Proof.
  induction l as [|x l IH]; intros Hnd; [constructor|].
  inversion Hnd as [|? ? Hx Hl]; subst. cbn. apply NoDup_app.
  - apply NoDup_map_NoDup_ForallPairs; [|exact Hl].
    intros a b _ _ H. inversion H. reflexivity.
  - apply IH. exact Hl.
  - intros [a b] Hin Hin'. apply in_map_iff in Hin.
    destruct Hin as [y [Heq _]]. inversion Heq; subst.
    apply In_combinations2 in Hin'. tauto.
Qed.

Lemma combinations2_one_order {A} (l : list A) (a b : A) :
  NoDup l -> In (a, b) (combinations2 l) -> ~ In (b, a) (combinations2 l).
Proof.
  induction l as [|x l IH]; intros Hnd; [cbn; tauto|].
  inversion Hnd as [|? ? Hx Hl]; subst. cbn. intros H H'.
  apply in_app_or in H, H'. destruct H as [H|H], H' as [H'|H'].
  - apply in_map_iff in H, H'. destruct H as [y [Hy Hyl]], H' as [z [Hz Hzl]].
    inversion Hy; subst. inversion Hz; subst. contradiction.
  - apply in_map_iff in H. destruct H as [y [Hy Hyl]]. inversion Hy; subst.
    apply In_combinations2 in H'. tauto.
  - apply in_map_iff in H'. destruct H' as [y [Hy Hyl]]. inversion Hy; subst.
    apply In_combinations2 in H. tauto.
  - exact (IH Hl H H').
Qed.

Lemma combinations2_some_order {A} (l : list A) (a b : A) :
  In a l -> In b l -> a <> b ->
  In (a, b) (combinations2 l) \/ In (b, a) (combinations2 l).
Proof.
  induction l as [|x l IH]; cbn; [tauto|].
  intros [Ha|Ha] [Hb|Hb] Hne; subst.
  - contradiction.
  - left. apply in_or_app. left. apply in_map. exact Hb.
  - right. apply in_or_app. left. apply in_map. exact Ha.
  - destruct (IH Ha Hb Hne); [left | right]; apply in_or_app; right; assumption.
Qed.

(** X9. The pairs of methods whose graphs are compared: for pairwise
    different keys there are n (n - 1) / 2 pairs, no pair comes twice,
    both members of a pair are keys (so both look-ups in the dict of
    graphs succeed) and they differ, and any two different keys are
    compared in exactly one order. *)
Theorem combinations2_pairs {A} (l : list A) :
  NoDup l ->
  2 * List.length (combinations2 l) = List.length l * (List.length l - 1)
  /\ NoDup (combinations2 l)
  /\ (forall a b, In (a, b) (combinations2 l) -> In a l /\ In b l /\ a <> b)
  /\ (forall a b, In a l -> In b l -> a <> b ->
        (In (a, b) (combinations2 l) \/ In (b, a) (combinations2 l))
        /\ ~ (In (a, b) (combinations2 l) /\ In (b, a) (combinations2 l))).
Proof.
  intros Hnd. split; [apply combinations2_count|].
  split; [apply combinations2_NoDup; exact Hnd|]. split.
  - intros a b H. destruct (@In_combinations2 A l a b H) as [Ha Hb].
    split; [exact Ha|]. split; [exact Hb|]. intros ->.
    exact (@combinations2_one_order A l b b Hnd H H).
  - intros a b Ha Hb Hne. split; [apply combinations2_some_order; assumption|].
    intros [H H']. exact (@combinations2_one_order A l a b Hnd H H').
Qed.

(** X9 on the three methods of the notebook. *)
Lemma combinations2_pairs_witness :
  NoDup ["LiNGAM"; "PC"; "GES"]
  /\ combinations2 ["LiNGAM"; "PC"; "GES"]
     = [("LiNGAM", "PC"); ("LiNGAM", "GES"); ("PC", "GES")]
  /\ NoDup (combinations2 ["LiNGAM"; "PC"; "GES"]).
Proof.
  assert (Hm : NoDup ["LiNGAM"; "PC"; "GES"]).
  { repeat constructor; cbn; intuition discriminate. }
  split; [exact Hm|]. split; [reflexivity|].
  exact (proj1 (proj2 (@combinations2_pairs string ["LiNGAM"; "PC"; "GES"] Hm))).
Defined.
